(** * collections.cpp: defaultdict, Counter and ChainMap

    A shallow embedding of [src/collections.cpp], the C++ rendering of
    Python's [collections] module, and the properties of its three container
    adapters.

    Conventions of the embedding.
    - [std::unordered_map<K, V>] and [std::map<K, V>] are finite maps
      [gmap K V]; the sequence [begin() .. end()] is [map_to_list].  The
      order in which a [std::unordered_map] visits its entries depends on
      its hash function and its history: what is stated of a sequence in
      that order is stated for every order ([Counter_run]).
    - [int] is [Z] with the two's complement wrap-around of a 32 bit word
      written out ([Int.wrap]), which is what [+=], [-=] and [--] on an
      [int] do on the targets the code is built for.
    - A C++ reference to a container ([Map&], [const Counter&]) is an address
      into a store of containers, so that two references may name one object.
    - An exception [std::out_of_range] is [None]; undefined behaviour of the
      C++ abstract machine (an iterator moved out of its range, a
      precondition of a standard algorithm broken) is [Undefined]. *)

From Stdlib Require Import Ascii.
From stdpp Require Import gmap list sorting strings.

(** ** Outcomes of a computation *)

Inductive result (A : Type) : Type :=
| Ok (a : A)
| Undefined
| OutOfFuel.
Arguments Ok {A} a.
Arguments Undefined {A}.
Arguments OutOfFuel {A}.

Definition result_bind {A B : Type} (f : A → result B) (r : result A) : result B :=
  match r with
  | Ok a => f a
  | Undefined => Undefined
  | OutOfFuel => OutOfFuel
  end.

#[global] Instance result_mret : MRet result := @Ok.
#[global] Instance result_mbind : MBind result := @result_bind.

(** ** [int] *)

Module Int.

Definition min_signed : Z := - 2 ^ 31.
Definition max_signed : Z := 2 ^ 31 - 1.

Definition in_range (z : Z) : Prop := (min_signed ≤ z ≤ max_signed)%Z.

#[global] Instance in_range_dec (z : Z) : Decision (in_range z).
Proof. unfold in_range. apply _. Defined.

Definition wrap (z : Z) : Z := ((z + 2 ^ 31) `mod` 2 ^ 32 - 2 ^ 31)%Z.

Definition add (a b : Z) : Z := wrap (a + b).
Definition sub (a b : Z) : Z := wrap (a - b).

(** The conversion [size_t -> int] of [n = this->size()]. *)
Definition of_size (n : nat) : Z := wrap (Z.of_nat n).

End Int.

(** ** The standard associative containers *)

Section std_map.
Context `{Countable K} {V : Type}.

(** [m.at(k)]: [None] stands for the [std::out_of_range] it throws. *)
Definition map_at (m : gmap K V) (k : K) : option V := m !! k.

(** [m[k]]: a missing key is first inserted with the value-initialised
    [V0]; the result is the container afterwards and the value the
    returned reference designates. *)
Definition map_subscript (V0 : V) (m : gmap K V) (k : K) : gmap K V * V :=
  match m !! k with
  | Some v => (m, v)
  | None => (<[k := V0]> m, V0)
  end.

(** [m.insert(value)]: no effect on a key that is present. *)
Definition map_insert (m : gmap K V) (kv : K * V) : gmap K V :=
  match m !! kv.1 with
  | Some _ => m
  | None => <[kv.1 := kv.2]> m
  end.

(** [m.insert(first, last)]. *)
Definition insert_range (m : gmap K V) (l : list (K * V)) : gmap K V :=
  foldl map_insert m l.

(** The constructor from an [initializer_list]: the elements are inserted
    in the order of the list (libstdc++, libc++ and MSVC all do so). *)
Definition from_initializer_list (il : list (K * V)) : gmap K V :=
  insert_range ∅ il.

End std_map.

(** ** Stores of containers, for references *)

Definition addr := nat.

Section store.
Context {M : Type}.

Definition store := addr → M.

Definition upd (st : store) (a : addr) (m : M) : store :=
  λ b, if decide (b = a) then m else st b.

End store.
Arguments store M : clear implicits.

(** ** defaultdict *)

Module defaultdict.
Section defaultdict.
Context `{Countable K} {V : Type} (V0 : V) {W : Type}.

(** [struct defaultdict : std::unordered_map<K, V> { V ( *f)(); }].  The
    factory is a plain function pointer: it runs in the program's global
    state [W], which it may read and change. *)
Record t : Type := mk {
  base : gmap K V;
  f : W → V * W
}.

(** The state a call runs in: the globals, and how many times the factory
    has been entered so far. *)
Record world : Type := World {
  globals : W;
  calls : nat
}.

Definition invoke (d : t) (w : world) : V * world :=
  let (v, g) := f d (globals w) in
  (v, {| globals := g; calls := S (calls w) |}).

Definition ctor (f : W → V * W) : t := mk ∅ f.

Definition ctor_il (f : W → V * W) (il : list (K * V)) : t :=
  mk (from_initializer_list il) f.

(** [V& operator[](const K& k)].  In [operator[](k) = f()] the right
    operand is evaluated first. *)
Definition subscript (d : t) (k : K) (w : world) : t * world * V :=
  match map_at (base d) k with
  | Some v => (d, w, v)
  | None =>
      let (v, w') := invoke d w in
      let (m, _) := map_subscript V0 (base d) k in
      (mk (<[k := v]> m) (f d), w', v)
  end.

(** [V& at(const K& k) { return ( *this)[k]; }] *)
Definition at_ (d : t) (k : K) (w : world) : t * world * V := subscript d k w.

End defaultdict.
End defaultdict.

(** ** The heap algorithms of [<algorithm>] *)

Section heap.
Context {A : Type} (cmp : A → A → bool).

(** [std::is_heap(first, last, cmp)]: no element compares greater than
    its parent, the parent of position [i] being position [(i - 1) / 2]. *)
Definition is_heap (v : list A) : Prop :=
  ∀ i x p, 0 < i → v !! i = Some x → v !! ((i - 1) `div` 2) = Some p →
           cmp p x = false.

(** What the C++ standard promises of [std::make_heap] and
    [std::pop_heap], on a whole range held as a list.  [make_heap]
    rearranges the range into a heap; [pop_heap], given a non-empty heap,
    moves its first element to the last position and leaves a heap in
    front of it.  The arrangement inside the heap is the library's
    business. *)
Class HeapAlgorithms : Type := {
  make_heap : list A → list A;
  pop_heap : list A → list A;
  make_heap_perm : ∀ v, make_heap v ≡ₚ v;
  make_heap_heap : ∀ v, is_heap (make_heap v);
  pop_heap_spec : ∀ x v, is_heap (x :: v) →
    ∃ v', pop_heap (x :: v) = v' ++ [x] ∧ v' ≡ₚ v ∧ is_heap v'
}.

End heap.
Arguments make_heap {A cmp _} v.
Arguments pop_heap {A cmp _} v.

(** A textbook binary heap in an array: [sift_down] restores the heap below
    position [i], [make_heap] sifts every inner node bottom-up, [pop_heap]
    swaps the root with the last element and sifts the new root down. *)
Section binary_heap.
Context {A : Type} (cmp : A → A → bool).

Definition swap (v : list A) (i j : nat) : list A :=
  match v !! i, v !! j with
  | Some a, Some b => <[i := b]> (<[j := a]> v)
  | _, _ => v
  end.

(** [larger v len i j]: of the positions [i] and [j], the one holding the
    greater element, [j] counting only when it lies below [len]. *)
Definition larger (v : list A) (len i j : nat) : nat :=
  match v !! i, v !! j with
  | Some a, Some b => if bool_decide (j < len) && cmp a b then j else i
  | _, _ => i
  end.

Fixpoint sift_down (fuel : nat) (v : list A) (len i : nat) : list A :=
  match fuel with
  | 0 => v
  | S fuel =>
      let top := larger v len (larger v len i (2 * i + 1)) (2 * i + 2) in
      if bool_decide (top = i) then v
      else sift_down fuel (swap v i top) len top
  end.

Definition heapify (v : list A) : list A :=
  foldr (λ i v, sift_down (length v) v (length v) i) v (seq 0 (length v `div` 2)).

Definition sift_pop (v : list A) : list A :=
  let v := swap v 0 (length v - 1) in
  sift_down (length v) v (length v - 1) 0.

End binary_heap.

(** ** Counter *)

Module Counter.
Section Counter.
Context `{Countable T}.

(** [struct Counter : std::unordered_map<T, int>] *)
Abbreviation t := (gmap T Z).

(** The counts a [Counter<T>] can hold are [int]s. *)
Definition wf (c : t) : Prop := ∀ k n, c !! k = Some n → Int.in_range n.

#[global] Instance wf_dec (c : t) : Decision (wf c).
Proof. apply (map_Forall_dec (λ _ n, Int.in_range n)). Defined.

(** An [iterator] into the container is the chain of nodes from its
    position on; [end()] is the empty chain. *)
Abbreviation iterator := (list (T * Z)).

Definition begin_ (c : t) : iterator := map_to_list c.
Definition end_ (c : t) : iterator := [].

(** *** [struct Iter] *)

Record Iter : Type := mkIter {
  curr : iterator;
  end_it : iterator;
  count : Z
}.

(** [Iter(iterator i, iterator e)] *)
Definition Iter_ctor (i e : iterator) : result Iter :=
  if bool_decide (i = e) then Ok {| curr := i; end_it := e; count := 0 |}
  else match i with
       | (_, n) :: _ => Ok {| curr := i; end_it := e; count := n |}
       | [] => Undefined
       end.

(** [const T& operator*()] *)
Definition deref (it : Iter) : result T :=
  match curr it with
  | (x, _) :: _ => Ok x
  | [] => Undefined
  end.

(** [while (count <= 0 && ++curr != end) count = curr->second;] *)
Fixpoint advance (curr e : iterator) (count : Z) : result (iterator * Z) :=
  if bool_decide (count ≤ 0)%Z then
    match curr with
    | [] => Undefined
    | _ :: next =>
        if bool_decide (next ≠ e) then
          match next with
          | (_, n) :: _ => advance next e n
          | [] => Undefined
          end
        else Ok (next, count)
    end
  else Ok (curr, count).

(** [Iter& operator++()] *)
Definition incr (it : Iter) : result Iter :=
  '(c, n) ← advance (curr it) (end_it it) (Int.sub (count it) 1);
  Ok {| curr := c; end_it := end_it it; count := n |}.

(** [bool operator!=(const Iter &i)] *)
Definition neq (it i : Iter) : bool := bool_decide (curr it ≠ curr i).

(** *** [range<Iter> elements()] *)

Record range : Type := mkRange { b : Iter; e : Iter }.

(** [while (i != j && i->second <= 0) ++i;] *)
Fixpoint skip (i j : iterator) : result iterator :=
  if bool_decide (i ≠ j) then
    match i with
    | (_, n) :: next => if bool_decide (n ≤ 0)%Z then skip next j else Ok i
    | [] => Undefined
    end
  else Ok i.

Definition elements (c : t) : result range :=
  let j := end_ c in
  i ← skip (begin_ c) j;
  b ← Iter_ctor i j;
  e ← Iter_ctor j j;
  Ok {| b := b; e := e |}.

(** [for (const T& x : r) out.push_back(x);], what a caller sees of the
    range.  The loop is bounded by [fuel] iterations. *)
Fixpoint range_for (fuel : nat) (it last : Iter) : result (list T) :=
  match fuel with
  | 0 => OutOfFuel
  | S fuel =>
      if neq it last then
        x ← deref it;
        it' ← incr it;
        l ← range_for fuel it' last;
        Ok (x :: l)
      else Ok []
  end.

Definition elements_list (fuel : nat) (c : t) : result (list T) :=
  r ← elements c; range_for fuel (b r) (e r).

(** *** [most_common] *)

(** The comparison [cmp] of [most_common]: [l.second < r.second]. *)
Definition cmp (l r : T * Z) : bool := bool_decide (l.2 < r.2)%Z.

Context `{!HeapAlgorithms cmp}.

(** [for (int i = 0; i < n; ++i) std::pop_heap(v.begin(), v.end() - i, cmp);]
    run for the [iters] values of [i] from [i] on.  The range
    [v.begin() .. v.end() - i] must be a non-empty range of [v]. *)
Fixpoint pop_loop (iters : nat) (i : Z) (v : list (T * Z)) :
    result (list (T * Z)) :=
  match iters with
  | 0 => Ok v
  | S iters =>
      let last := (Z.of_nat (length v) - i)%Z in
      if bool_decide (1 ≤ last)%Z then
        let m := Z.to_nat last in
        pop_loop iters (i + 1) (pop_heap (take m v) ++ drop m v)
      else Undefined
  end.

(** [{std::reverse_iterator(v.end()), std::reverse_iterator(v.end() - n)}]:
    the last [n] elements of [v], back to front; [v.end() - n] must be an
    iterator of [v]. *)
Definition reverse_range (v : list (T * Z)) (n : Z) : result (list (T * Z)) :=
  if bool_decide (0 ≤ n ≤ Z.of_nat (length v))%Z then
    Ok (reverse (drop (length v - Z.to_nat n) v))
  else Undefined.

(** [std::vector<std::pair<T, int>> most_common(int n = 0)], as a
    transition of the counter it is called on. *)
Definition most_common (n : Z) (c : t) : t * result (list (T * Z)) :=
  let n := if bool_decide (n = 0)%Z then Int.of_size (size c) else n in
  let v := make_heap (begin_ c) in
  (c, v ← pop_loop (Z.to_nat n) 0 v; reverse_range v n).

(** [most_common()], the argument left to its default. *)
Definition most_common_default (c : t) : t * result (list (T * Z)) :=
  most_common 0 c.

(** *** Counting access and the compound assignments *)

(** [int& operator[](const T&)], inherited from [std::unordered_map]. *)
Definition subscript (c : t) (k : T) : t * Z := map_subscript 0%Z c k.

(** [( *this)[k] += n] and [( *this)[k] -= n] on the counter at [this]. *)
Definition add_at (st : store t) (this : addr) (k : T) (n : Z) : store t :=
  let (m, old) := subscript (st this) k in
  upd st this (<[k := Int.add old n]> m).

Definition sub_at (st : store t) (this : addr) (k : T) (n : Z) : store t :=
  let (m, old) := subscript (st this) k in
  upd st this (<[k := Int.sub old n]> m).

(** [for (auto &t : c) step(t.first, t.second);] over the counter at [c],
    [ks] being the keys of the nodes still to visit.  [t.second] is read
    through the reference at the time of the visit. *)
Fixpoint for_each (step : store t → addr → T → Z → store t)
    (st : store t) (this c : addr) (ks : list T) : store t :=
  match ks with
  | [] => st
  | k :: ks => for_each step (step st this k (st c !!! k)) this c ks
  end.

(** [Counter& operator+=(const Counter &c)] and
    [Counter& operator-=(const Counter &c)] *)
Definition add_assign (st : store t) (this c : addr) : store t :=
  for_each add_at st this c (begin_ (st c)).*1.

Definition sub_assign (st : store t) (this c : addr) : store t :=
  for_each sub_at st this c (begin_ (st c)).*1.

(** [Counter& update(std::initializer_list<T> l)]:
    [for (const T& t : l) ++( *this)[t];] *)
Definition update (c : t) (l : list T) : t :=
  foldl (λ c x, let (m, old) := subscript c x in <[x := Int.add old 1]> m) c l.

(** [int total()] *)
Definition total (c : t) : Z :=
  foldl (λ s t, Int.add s t.2) 0%Z (begin_ c).

(** [Counter(std::initializer_list<std::pair<const T, int>> il)] and
    [Counter() = default] *)
Definition ctor_il (il : list (T * Z)) : t := from_initializer_list il.
Definition ctor : t := ∅.

(** [Iter operator++(int)]: the iterator as it was, and as it is after. *)
Definition post_incr (it : Iter) : result (Iter * Iter) :=
  it' ← incr it; Ok (it, it').

(** The local [ct] of [operator+] and [operator-] is an object of its own:
    it lives at an address that is neither operand's. *)
Definition local (this c : addr) : addr := S (this `max` c).

(** [Counter operator+(const Counter &c) { Counter ct = *this; return ct += c; }]
    and [operator-] likewise; the counter is returned by value. *)
Definition plus (st : store t) (this c : addr) : t :=
  let ct := local this c in
  add_assign (upd st ct (st this)) ct c ct.

Definition minus (st : store t) (this c : addr) : t :=
  let ct := local this c in
  sub_assign (upd st ct (st this)) ct c ct.

End Counter.
End Counter.

(** ** Counter: any order of iteration, and the memory [most_common] works in *)

Module Counter_run.
Import Counter.
Section Counter_run.
Context `{Countable T}.

(** [range<Iter> elements()] on a counter whose [begin() .. end()] visits
    the entries [es], whichever order that is, and the loop over it. *)
Definition elements_over (es : list (T * Z)) : result range :=
  let j := [] in
  i ← skip es j;
  b ← Iter_ctor i j;
  e ← Iter_ctor j j;
  Ok {| b := b; e := e |}.

Definition elements_list_over (fuel : nat) (es : list (T * Z)) : result (list T) :=
  r ← elements_over es; range_for fuel (b r) (e r).

Context `{!HeapAlgorithms (cmp (T:=T))}.

(** The objects [most_common] deals with: counters, and the vector [v] of
    pairs, which is a local object with an address of its own. *)
Inductive object : Type :=
| Cnt (c : gmap T Z)
| Vec (v : list (T * Z)).

Definition read_counter (m : store object) (a : addr) : result (gmap T Z) :=
  match m a with
  | Cnt c => Ok c
  | Vec _ => Undefined
  end.

Definition read_vector (m : store object) (a : addr) : result (list (T * Z)) :=
  match m a with
  | Vec v => Ok v
  | Cnt _ => Undefined
  end.

(** [std::make_heap(v.begin(), v.end(), cmp)], [v] being the vector at [a]:
    the algorithm writes through the iterators it is given. *)
Definition make_heap_at (a : addr) (m : store object) : result (store object) :=
  v ← read_vector m a;
  Ok (upd m a (Vec (make_heap v))).

(** [std::pop_heap(v.begin(), v.end() - i, cmp)] *)
Definition pop_heap_at (a : addr) (i : Z) (m : store object) :
    result (store object) :=
  v ← read_vector m a;
  let last := (Z.of_nat (length v) - i)%Z in
  if bool_decide (1 ≤ last)%Z then
    let k := Z.to_nat last in
    Ok (upd m a (Vec (pop_heap (take k v) ++ drop k v)))
  else Undefined.

(** [for (int i = 0; i < n; ++i) std::pop_heap(v.begin(), v.end() - i, cmp);] *)
Fixpoint pop_loop_at (iters : nat) (i : Z) (a : addr) (m : store object) :
    result (store object) :=
  match iters with
  | 0 => Ok m
  | S iters => m ← pop_heap_at a i m; pop_loop_at iters (i + 1) a m
  end.

(** [most_common(n)] called on the counter at [this], its local [v] placed
    at the address [v]: the memory when the call returns, and the vector
    returned. *)
Definition most_common_call (v this : addr) (n : Z) (m : store object) :
    result (store object * list (T * Z)) :=
  c ← read_counter m this;
  let n := if bool_decide (n = 0)%Z then Int.of_size (size c) else n in
  let m := upd m v (Vec (begin_ c)) in
  m ← make_heap_at v m;
  m ← pop_loop_at (Z.to_nat n) 0 v m;
  w ← read_vector m v;
  r ← reverse_range w n;
  Ok (m, r).

End Counter_run.
End Counter_run.

(** ** ChainMap *)

Module ChainMap.
Section ChainMap.
Context `{Countable K} {V : Type} (V0 : V).

(** The layers are maps of one type [Map] ([one_map] hands one [Map&] down
    the whole chain), with [V0] the value-initialised [V]. *)
Abbreviation Map := (gmap K V).

(** [template<class Map, class... Maps> struct ChainMap : ChainMap<Maps...>]
    holds a reference [map] and the rest of the chain as its base [B];
    [template<class Map> struct ChainMap<Map>] ends the chain. *)
Inductive t : Type :=
| Single (map : addr)
| Chain (map : addr) (B : t).

Definition front (cm : t) : addr :=
  match cm with
  | Single map => map
  | Chain map _ => map
  end.

Fixpoint maps (cm : t) : list addr :=
  match cm with
  | Single map => [map]
  | Chain map B => map :: maps B
  end.

(** [Map& get_map(size_t i)]; [None] is the [std::out_of_range] thrown. *)
Fixpoint get_map (cm : t) (i : nat) : option addr :=
  match cm with
  | Single map => if bool_decide (i ≠ 0) then None else Some map
  | Chain map B => if bool_decide (i ≠ 0) then get_map B (i - 1) else Some map
  end.

(** [new_child(NewMap& new_map)] *)
Definition new_child (cm : t) (new_map : addr) : t := Chain new_map cm.

(** [ChainMap(Map& map, Maps&... maps) : map(map), B(maps...)] *)
Fixpoint ctor (map : addr) (maps : list addr) : t :=
  match maps with
  | [] => Single map
  | m :: ms => Chain map (ctor m ms)
  end.

(** [const V& at(const K& k) const]; [None] is the [std::out_of_range]
    that leaves the last layer. *)
Fixpoint at_ (st : store Map) (cm : t) (k : K) : option V :=
  match cm with
  | Single map => map_at (st map) k
  | Chain map B =>
      match map_at (st map) k with
      | Some v => Some v
      | None => at_ st B k
      end
  end.

(** [V& operator[](const K& k)]: the store afterwards and the value the
    returned reference, which is into [map], designates.  In
    [map[k] = at(k)] the right operand is evaluated first, and its
    exception leaves the [try] before [map[k]] is reached. *)
Definition subscript (st : store Map) (cm : t) (k : K) : store Map * V :=
  match cm with
  | Single map =>
      let (m, v) := map_subscript V0 (st map) k in
      (upd st map m, v)
  | Chain map B =>
      match at_ st cm k with
      | Some v =>
          let (m, _) := map_subscript V0 (st map) k in
          (upd st map (<[k := v]> m), v)
      | None =>
          let (m, v) := map_subscript V0 (st map) k in
          (upd st map m, v)
      end
  end.

(** [size_t erase(const K& k)] *)
Definition erase (st : store Map) (cm : t) (k : K) : store Map * nat :=
  let map := front cm in
  match st map !! k with
  | Some _ => (upd st map (delete k (st map)), 1)
  | None => (st, 0)
  end.

(** [void one_map(Map& one)], [one] being the local of [one_map()]. *)
Fixpoint one_map_into (st : store Map) (cm : t) (one : Map) : Map :=
  match cm with
  | Single map => insert_range one (map_to_list (st map))
  | Chain map B => one_map_into st B (insert_range one (map_to_list (st map)))
  end.

(** [Map one_map()]: the map is returned by value. *)
Definition one_map (st : store Map) (cm : t) : Map :=
  match cm with
  | Single map => st map
  | Chain _ _ => one_map_into st cm ∅
  end.

End ChainMap.
End ChainMap.

(** * Properties *)

(** ** The standard containers *)

Section std_map_facts.
Context `{Countable K} {V : Type}.
Implicit Types (m : gmap K V) (l : list (K * V)) (k : K).

(** The value a list of pairs gives first, and last, for a key. *)
Fixpoint first_seen (l : list (K * V)) (k : K) : option V :=
  match l with
  | [] => None
  | (k', v) :: l => if decide (k' = k) then Some v else first_seen l k
  end.

Definition last_seen (l : list (K * V)) (k : K) : option V :=
  first_seen (reverse l) k.

Lemma lookup_map_insert m kv k :
  map_insert m kv !! k =
    match m !! k with
    | Some v => Some v
    | None => if decide (kv.1 = k) then Some kv.2 else None
    end.
Proof.
  unfold map_insert. destruct (m !! kv.1) as [u|] eqn:Hkv.
  - destruct (m !! k) eqn:Hk; [done|].
    case_decide; [congruence | done].
  - rewrite lookup_insert. case_decide as Hd.
    + subst k. by rewrite Hkv.
    + by destruct (m !! k).
Qed.

Lemma lookup_insert_range l : ∀ m k,
  insert_range m l !! k =
    match m !! k with
    | Some v => Some v
    | None => first_seen l k
    end.
Proof.
  induction l as [|[k' v] l IH]; intros m k; simpl.
  - by destruct (m !! k).
  - unfold insert_range in *. simpl. rewrite IH, lookup_map_insert. simpl.
    destruct (m !! k); [done|]. by case_decide.
Qed.

Lemma first_seen_list_to_map l k :
  first_seen l k = (list_to_map l : gmap K V) !! k.
Proof.
  induction l as [|[k' v] l IH]; simpl; [by rewrite lookup_empty|].
  rewrite lookup_insert. by case_decide.
Qed.

Lemma insert_range_union m l : insert_range m l = m ∪ list_to_map l.
Proof.
  apply map_eq; intros k.
  rewrite lookup_insert_range, lookup_union, first_seen_list_to_map.
  by destruct (m !! k), (list_to_map l !! k).
Qed.

Lemma first_seen_map_to_list m k : first_seen (map_to_list m) k = m !! k.
Proof. by rewrite first_seen_list_to_map, list_to_map_to_list. Qed.

Lemma lookup_insert_range_map (m m' : gmap K V) k :
  insert_range m (map_to_list m') !! k =
    match m !! k with
    | Some v => Some v
    | None => m' !! k
    end.
Proof. by rewrite lookup_insert_range, first_seen_map_to_list. Qed.

Lemma first_seen_None l k : first_seen l k = None ↔ k ∉ l.*1.
Proof.
  induction l as [|[k' v] l IH]; simpl.
  - split; [intros _; apply not_elem_of_nil | done].
  - rewrite not_elem_of_cons, <- IH. case_decide as Hd.
    + split; [done | intros [Hne _]; by destruct Hne].
    + split; [intros Hl; split; [congruence | done] | by intros [_ Hl]].
Qed.

Lemma first_seen_NoDup l k v :
  NoDup l.*1 → (k, v) ∈ l → first_seen l k = Some v.
Proof.
  induction l as [|[k' v'] l IH]; simpl; intros Hnd Hin.
  - by apply elem_of_nil in Hin.
  - apply NoDup_cons in Hnd as [Hk' Hnd].
    apply elem_of_cons in Hin as [[= -> ->]|Hin].
    + by rewrite decide_True.
    + case_decide as Hd; [|by apply IH].
      subst k'. exfalso. apply Hk'. apply list_elem_of_fmap.
      by exists (k, v).
Qed.

End std_map_facts.

Section store_facts.
Context {M : Type}.
Implicit Types (st : store M) (a b : addr).

Lemma upd_eq st a m : upd st a m a = m.
Proof. unfold upd. by rewrite decide_True. Qed.

Lemma upd_ne st a b m : b ≠ a → upd st a m b = st b.
Proof. intros. unfold upd. by rewrite decide_False. Qed.

End store_facts.

(** ** defaultdict *)

Module defaultdict_facts.
Import defaultdict.

Section defaultdict_facts.
Context `{Countable K} {V : Type} (V0 : V) {W : Type}.
Implicit Types (d : t (K:=K) (V:=V) (W:=W)) (k : K) (w : world (W:=W)).

Lemma subscript_hit d k w v :
  base d !! k = Some v → subscript V0 d k w = (d, w, v).
Proof. intros Hk. unfold subscript, map_at. by rewrite Hk. Qed.

Lemma subscript_miss d k w :
  base d !! k = None →
  subscript V0 d k w =
    (mk (<[k := (invoke d w).1]> (base d)) (f d), (invoke d w).2, (invoke d w).1).
Proof.
  intros Hk. unfold subscript, map_at, map_subscript. rewrite Hk.
  destruct (invoke d w) as [v w']. simpl. by rewrite insert_insert_eq.
Qed.

(** C2, as the code has it: the map built from an initializer list holds,
    for every key, the value of the first pair with that key, and nothing
    for a key of no pair. *)
Theorem ctor_il_first_seen (fn : W → V * W) (il : list (K * V)) (k : K) :
  base (ctor_il fn il) !! k = first_seen il k.
Proof.
  unfold ctor_il, from_initializer_list. simpl.
  by rewrite lookup_insert_range, lookup_empty.
Qed.

(** With the keys of the initializer list distinct, as the constructor is
    meant to be used, every pair of the list is stored. *)
Lemma ctor_il_unique (fn : W → V * W) (il : list (K * V)) (k : K) (v : V) :
  NoDup il.*1 → (k, v) ∈ il → base (ctor_il fn il) !! k = Some v.
Proof. intros Hnd Hin. rewrite ctor_il_first_seen. by apply first_seen_NoDup. Qed.

(** C6: on a key that is absent, [operator[]] enters the factory exactly
    once, stores what it produced under the key and returns it, and a
    second call with the same key returns that stored value with no further
    factory call and no change; on a key that is present it returns the
    stored value and changes nothing. *)
Theorem subscript_get_or_create d k w :
  (base d !! k = None →
     ∃ v g, f d (globals w) = (v, g) ∧
       let '(d1, w1, v1) := subscript V0 d k w in
       v1 = v ∧ w1 = World g (S (calls w)) ∧
       base d1 = <[k := v]> (base d) ∧ f d1 = f d ∧
       subscript V0 d1 k w1 = (d1, w1, v)) ∧
  (∀ v, base d !! k = Some v → subscript V0 d k w = (d, w, v)).
Proof.
  split.
  - intros Hk. rewrite (subscript_miss _ _ _ Hk). unfold invoke.
    destruct (f d (globals w)) as [v g] eqn:Hf. exists v, g. simpl.
    split; [done|]. repeat split.
    apply subscript_hit. simpl. by rewrite lookup_insert_eq.
  - intros v. apply subscript_hit.
Qed.

End defaultdict_facts.

(** The dictionary of [main]: [dd([]() { return -1; }, {{'a', 1}})]. *)
Definition minus_one (g : unit) : Z * unit := ((-1)%Z, g).
Definition dd : t (K:=ascii) (V:=Z) (W:=unit) := ctor_il minus_one [("a"%char, 1%Z)].
Definition w0 : world (W:=unit) := World () 0.

Lemma subscript_get_or_create_witness :
  subscript 0%Z dd "a"%char w0 = (dd, w0, 1%Z) ∧
  ∃ v g, minus_one () = (v, g) ∧
    let '(d1, w1, v1) := subscript 0%Z dd "b"%char w0 in
    v1 = v ∧ w1 = World g 1 ∧
    base d1 = <[ "b"%char := v]> (base dd) ∧ f d1 = f dd ∧
    subscript 0%Z d1 "b"%char w1 = (d1, w1, v).
Proof.
  split.
  - apply (proj2 (subscript_get_or_create 0%Z dd "a"%char w0)). reflexivity.
  - apply (proj1 (subscript_get_or_create 0%Z dd "b"%char w0)). reflexivity.
Defined.

(** [dd['a']] then [dd.at('b')] print [1-1]. *)
Example main_defaultdict :
  let '(d1, w1, x) := subscript 0%Z dd "a"%char w0 in
  let '(d2, w2, y) := at_ 0%Z d1 "b"%char w1 in
  (x, y) = (1%Z, (-1)%Z) ∧ calls w2 = 1 ∧ base d2 !! "b"%char = Some (-1)%Z.
Proof. vm_compute. done. Qed.

(** C2 fails as stated: of two pairs with one key, the first is the one
    stored, not the last. *)
Lemma ctor_il_last_seen_fails :
  let il := [("a"%char, 1%Z); ("a"%char, 2%Z)] in
  ¬ (∀ k v, last_seen il k = Some v →
            base (ctor_il minus_one il) !! k = Some v).
Proof.
  intros il Hclaim. specialize (Hclaim "a"%char 2%Z).
  assert (Hstored : base (ctor_il minus_one il) !! "a"%char = Some 1%Z)
    by (rewrite ctor_il_first_seen; reflexivity).
  rewrite Hstored in Hclaim.
  assert (Hlast : last_seen il "a"%char = Some 2%Z) by reflexivity.
  specialize (Hclaim Hlast). discriminate.
Qed.

End defaultdict_facts.

(** ** [int] *)

Section int_facts.
Import Int.

Lemma wrap_in_range z : in_range z → wrap z = z.
Proof.
  unfold in_range, min_signed, max_signed, wrap. intros Hz.
  rewrite Z.mod_small; lia.
Qed.

Lemma sub_add a b : in_range a → sub (add a b) b = a.
Proof.
  intros Ha. unfold sub, add. rewrite <- (wrap_in_range a Ha) at 2.
  unfold wrap. f_equal.
  replace ((a + b + 2 ^ 31) `mod` 2 ^ 32 - 2 ^ 31 - b + 2 ^ 31)%Z
    with ((a + b + 2 ^ 31) `mod` 2 ^ 32 - b)%Z by lia.
  rewrite Zminus_mod_idemp_l. f_equal. lia.
Qed.

Lemma sub_one_pos n : (0 < n)%Z → in_range n → sub n 1 = (n - 1)%Z.
Proof.
  intros Hn Hr. unfold sub. apply wrap_in_range.
  unfold in_range, min_signed, max_signed in *. lia.
Qed.

Lemma in_range_0 : in_range 0.
Proof. unfold in_range, min_signed, max_signed. lia. Qed.

End int_facts.

(** ** Counter: counting access, [+=] and [-=] *)

Module Counter_facts.
Import Counter.

Section Counter_access.
Context `{Countable T}.
Implicit Types (c : gmap T Z) (k : T) (st : store (gmap T Z)).

(** The count of an element, an absent entry counting 0. *)
Definition count_in (c : gmap T Z) (k : T) : Z := default 0%Z (c !! k).

Lemma count_in_wf c k : wf c → Int.in_range (count_in c k).
Proof.
  intros Hwf. unfold count_in. destruct (c !! k) as [n|] eqn:Hk; simpl.
  - by eapply Hwf.
  - apply in_range_0.
Qed.

Lemma count_in_insert c k n k' :
  count_in (<[k := n]> c) k' = if decide (k = k') then n else count_in c k'.
Proof. unfold count_in. rewrite lookup_insert. by case_decide. Qed.

(** The [operator[]] a counter inherits is its one access to a count, [at]
    being deleted; it is the access [update], [+=] and [-=] write through.
    It returns the stored count, or 0 for an element with no entry, which
    it then inserts with count 0. *)
Lemma subscript_count c k :
  (subscript c k).2 = count_in c k ∧
  (is_Some (c !! k) → (subscript c k).1 = c) ∧
  (c !! k = None → (subscript c k).1 = <[k := 0%Z]> c) ∧
  (∀ k', count_in (subscript c k).1 k' = count_in c k').
Proof.
  unfold subscript, map_subscript, count_in.
  destruct (c !! k) as [n|] eqn:Hk; simpl.
  - split; [done|]. split; [done|]. split; [intros [=] | done].
  - split; [done|]. split; [by intros [? [=]]|]. split; [done|].
    intros k'. rewrite lookup_insert. case_decide; [by subst; rewrite Hk | done].
Qed.

Lemma add_at_this st this k n :
  add_at st this k n this = <[k := Int.add (count_in (st this) k) n]> (st this).
Proof.
  unfold add_at, subscript, map_subscript, count_in.
  destruct (st this !! k); simpl; rewrite upd_eq; [done|].
  by rewrite insert_insert_eq.
Qed.

Lemma sub_at_this st this k n :
  sub_at st this k n this = <[k := Int.sub (count_in (st this) k) n]> (st this).
Proof.
  unfold sub_at, subscript, map_subscript, count_in.
  destruct (st this !! k); simpl; rewrite upd_eq; [done|].
  by rewrite insert_insert_eq.
Qed.

Lemma add_at_other st this k n a : a ≠ this → add_at st this k n a = st a.
Proof.
  intros. unfold add_at. destruct (subscript (st this) k). by apply upd_ne.
Qed.

Lemma sub_at_other st this k n a : a ≠ this → sub_at st this k n a = st a.
Proof.
  intros. unfold sub_at. destruct (subscript (st this) k). by apply upd_ne.
Qed.

(** One pass of [for (auto &t : c) ( *this)[t.first] op= t.second] over an
    operand that is another object than [*this]. *)
Section pass.
Context (step : store (gmap T Z) → addr → T → Z → store (gmap T Z))
        (op : Z → Z → Z).
Context (step_this : ∀ st this k n,
           step st this k n this = <[k := op (count_in (st this) k) n]> (st this))
        (step_other : ∀ st this k n a, a ≠ this → step st this k n a = st a).

Lemma for_each_other ks : ∀ st (this d a : addr),
  a ≠ this → for_each step st this d ks a = st a.
Proof.
  induction ks as [|k ks IH]; intros st this d a Ha; simpl; [done|].
  rewrite IH by done. by apply step_other.
Qed.

Lemma for_each_count ks : ∀ st (this d : addr) k,
  d ≠ this → NoDup ks →
  count_in (for_each step st this d ks this) k =
    if decide (k ∈ ks) then op (count_in (st this) k) (st d !!! k)
    else count_in (st this) k.
Proof.
  induction ks as [|k' ks IH]; intros st this d k Hd Hnd.
  - cbn [for_each]. case_decide as Hin; [by apply elem_of_nil in Hin | done].
  - apply NoDup_cons in Hnd as [Hk' Hnd].
    cbn [for_each]. rewrite IH by done. rewrite (step_other _ _ _ _ d) by done.
    rewrite step_this, count_in_insert.
    destruct (decide (k' = k)) as [->|Hne].
    + rewrite (decide_False (P := k ∈ ks)) by done.
      by rewrite (decide_True (P := k ∈ k :: ks)) by (apply elem_of_cons; by left).
    + destruct (decide (k ∈ ks)) as [Hin|Hin].
      * by rewrite (decide_True (P := k ∈ k' :: ks))
          by (apply elem_of_cons; by right).
      * rewrite (decide_False (P := k ∈ k' :: ks)); [done|].
        rewrite not_elem_of_cons. split; [congruence | done].
Qed.

End pass.

(** C8, as the code has it: when the operand is another object than the
    counter itself, [c += d] followed by [c -= d] leaves every element of
    [c] with the count it had, an absent entry counting 0. *)
Theorem add_sub_round_trip st this d k :
  d ≠ this → wf (st this) →
  count_in (sub_assign (add_assign st this d) this d this) k =
    count_in (st this) k.
Proof.
  intros Hd Hwf. unfold sub_assign, add_assign, begin_.
  set (st1 := for_each add_at st this d (map_to_list (st d)).*1).
  assert (Hd1 : st1 d = st d).
  { unfold st1. apply (for_each_other add_at); [apply add_at_other | done]. }
  rewrite Hd1.
  rewrite (for_each_count sub_at Int.sub sub_at_this sub_at_other)
    by (done || apply NoDup_fst_map_to_list).
  unfold st1 at 1 3.
  rewrite (for_each_count add_at Int.add add_at_this add_at_other)
    by (done || apply NoDup_fst_map_to_list).
  rewrite Hd1. case_decide; [|done].
  apply sub_add. by apply count_in_wf.
Qed.

End Counter_access.

(** Two counters in a store: [{a: 1, b: 1}] at address 0 and
    [{b: 1, c: 2}] at address 1, as in [main]. *)
Definition st0 : store (gmap ascii Z) :=
  λ a, match a with
       | 0 => {[ "a"%char := 1%Z; "b"%char := 1%Z ]}
       | 1 => {[ "b"%char := 1%Z; "c"%char := 2%Z ]}
       | _ => ∅
       end.

Lemma wf_st0 : wf (st0 0).
Proof. apply (bool_decide_unpack _). vm_compute. exact I. Qed.

Lemma add_sub_round_trip_witness :
  count_in (sub_assign (add_assign st0 0 1) 0 1 0) "c"%char =
    count_in (st0 0) "c"%char.
Proof.
  apply (add_sub_round_trip st0 0 1 "c"%char); [discriminate | apply wf_st0].
Defined.

(** [ct += {{'b', 1}, {'c', 2}}] gives [{a: 1, b: 2, c: 2}]. *)
Example main_add_assign :
  add_assign st0 0 1 0 = {[ "a"%char := 1%Z; "b"%char := 2%Z; "c"%char := 2%Z ]}.
Proof. vm_compute. reflexivity. Qed.

(** [ct.update({'a', 'd', 'a'})] then gives [{a: 3, b: 2, c: 2, d: 1}]. *)
Example main_update :
  update (add_assign st0 0 1 0) ["a"; "d"; "a"]%char =
    {[ "a"%char := 3%Z; "b"%char := 2%Z; "c"%char := 2%Z; "d"%char := 1%Z ]}.
Proof. vm_compute. reflexivity. Qed.

(** [c += c; c -= c] takes every count of [c] to 0: with the counter as its
    own operand C8 fails as stated. *)
Lemma add_sub_self_fails :
  let st : store (gmap ascii Z) := λ _, {[ "a"%char := 1%Z ]} in
  ¬ (∀ k, count_in (sub_assign (add_assign st 0 0) 0 0 0) k = count_in (st 0) k).
Proof.
  intros st Hclaim. specialize (Hclaim "a"%char).
  vm_compute in Hclaim. discriminate.
Qed.

End Counter_facts.

(** ** Counter: [elements] *)

Module Elements_facts.
Import Counter Counter_facts.

Section elements.
Context `{Countable T}.
Implicit Types (l rest : list (T * Z)) (x y : T) (c : gmap T Z).

(** What the range is to yield: every element as often as its count says,
    in the order of the entries. *)
Definition expand (l : list (T * Z)) : list T :=
  l ≫= λ kv, replicate (Z.to_nat kv.2) kv.1.

(** The entries from the first one with a positive count on. *)
Fixpoint first_positive (l : list (T * Z)) : list (T * Z) :=
  match l with
  | [] => []
  | (x, n) :: rest => if bool_decide (n ≤ 0)%Z then first_positive rest else l
  end.

Definition occurrences (x : T) (xs : list T) : nat := length (filter (x =.) xs).

(** The sum of the positive counts. *)
Definition positive_total (c : gmap T Z) : Z :=
  foldr (λ kv s, if bool_decide (0 < kv.2)%Z then kv.2 + s else s)%Z 0%Z
        (map_to_list c).

Definition counts_in_range (l : list (T * Z)) : Prop :=
  Forall (λ kv, Int.in_range kv.2) l.

Lemma expand_cons x n rest :
  expand ((x, n) :: rest) = replicate (Z.to_nat n) x ++ expand rest.
Proof. done. Qed.

Lemma expand_first_positive l : expand (first_positive l) = expand l.
Proof.
  induction l as [|[x n] rest IH]; [done|]. cbn [first_positive].
  case_bool_decide as Hn; [|done].
  rewrite IH, expand_cons. by replace (Z.to_nat n) with 0 by lia.
Qed.

Lemma first_positive_head l x n rest :
  first_positive l = (x, n) :: rest → (0 < n)%Z.
Proof.
  induction l as [|[y m] l IH]; [done|]. simpl.
  case_bool_decide as Hm; [done|]. intros [= _ -> _]. lia.
Qed.

Lemma first_positive_in_range l :
  counts_in_range l → counts_in_range (first_positive l).
Proof.
  induction 1 as [|[y m] l Hm Hl IH]; [constructor|]. simpl.
  case_bool_decide; [done | by constructor].
Qed.

Lemma skip_first_positive l : skip l [] = Ok (first_positive l).
Proof.
  induction l as [|[x n] rest IH]; [done|]. simpl.
  by case_bool_decide.
Qed.

Lemma advance_step x n rest cnt :
  (cnt ≤ 0)%Z →
  advance ((x, n) :: rest) [] cnt =
    if bool_decide (rest ≠ []) then
      match rest with
      | (_, m) :: _ => advance rest [] m
      | [] => Undefined
      end
    else Ok (rest, cnt).
Proof.
  intros Hcnt. cbn [advance].
  rewrite (bool_decide_eq_true_2 (cnt ≤ 0)%Z) by done.
  by destruct rest as [|[y m] rest].
Qed.

Lemma advance_positive l cnt : (0 < cnt)%Z → advance l [] cnt = Ok (l, cnt).
Proof.
  intros Hcnt. destruct l; simpl; by rewrite bool_decide_eq_false_2 by lia.
Qed.

(** The loop of [operator++] leaves the exhausted entry for the next one
    with a positive count, taking that count, or for the end. *)
Lemma advance_first_positive rest : ∀ x n cnt,
  (cnt ≤ 0)%Z →
  ∃ cnt', advance ((x, n) :: rest) [] cnt = Ok (first_positive rest, cnt') ∧
          ∀ y m r, first_positive rest = (y, m) :: r → cnt' = m.
Proof.
  induction rest as [|[y m] rest IH]; intros x n cnt Hcnt;
    rewrite advance_step by done.
  - exists cnt. rewrite bool_decide_eq_false_2 by (by intros ?). done.
  - rewrite bool_decide_eq_true_2 by done. cbn [first_positive].
    case_bool_decide as Hm.
    + apply IH, Hm.
    + exists m. rewrite advance_positive by lia.
      split; [done|]. by intros ??? [= _ -> _].
Qed.

(** The loop over the range, from an entry with [cnt] yields left. *)
Lemma range_for_run fuel : ∀ x n rest (cnt : Z) (last : Iter),
  curr last = [] → counts_in_range rest →
  (0 < cnt)%Z → Int.in_range cnt →
  Z.to_nat cnt + length (expand rest) < fuel →
  range_for fuel (mkIter ((x, n) :: rest) [] cnt) last =
    Ok (replicate (Z.to_nat cnt) x ++ expand rest).
Proof.
  induction fuel as [|fuel IH]; intros x n rest cnt last Hlast Hrest Hk Hr Hfuel;
    [lia|].
  cbn [range_for]. unfold neq, deref, incr. cbn [curr end_it count].
  rewrite Hlast, bool_decide_eq_true_2 by done.
  rewrite sub_one_pos by done.
  replace (Z.to_nat cnt) with (S (Z.to_nat (cnt - 1))) in Hfuel |- * by lia.
  cbn [replicate app].
  destruct (decide (cnt = 1%Z)) as [->|Hk1].
  - change (1 - 1)%Z with 0%Z in *. cbn [Z.to_nat replicate app] in *.
    destruct (advance_first_positive rest x n 0%Z) as (cnt' & -> & Hhead);
      [done|].
    cbn [mbind result_mbind result_bind].
    rewrite <- (expand_first_positive rest) in Hfuel |- *.
    pose proof (first_positive_in_range _ Hrest) as Hfp.
    destruct (first_positive rest) as [|[y m] r] eqn:Hfirst.
    + destruct fuel as [|fuel]; [simpl in Hfuel; lia|].
      cbn [range_for]. unfold neq. cbn [curr].
      rewrite Hlast, bool_decide_eq_false_2 by (by intros ?). done.
    + pose proof (first_positive_head _ _ _ _ Hfirst) as Hm.
      rewrite (Hhead y m r eq_refl).
      apply Forall_cons in Hfp as [Hmr Hr'].
      rewrite expand_cons in Hfuel |- *.
      rewrite length_app, length_replicate in Hfuel.
      rewrite IH; [done | done | done | done | done | lia].
  - rewrite advance_positive by lia.
    cbn [mbind result_mbind result_bind].
    rewrite IH; [done | done | done | lia | | lia].
    unfold Int.in_range, Int.min_signed, Int.max_signed in *. lia.
Qed.

Lemma Iter_ctor_end : Iter_ctor (T:=T) [] [] = Ok (mkIter [] [] 0).
Proof. done. Qed.

Lemma Iter_ctor_cons x n rest :
  Iter_ctor ((x, n) :: rest) [] = Ok (mkIter ((x, n) :: rest) [] n).
Proof. unfold Iter_ctor. by rewrite bool_decide_eq_false_2. Qed.

(** [elements()] and the loop over it. *)
Lemma elements_list_expand c fuel :
  wf c → length (expand (map_to_list c)) < fuel →
  elements_list fuel c = Ok (expand (map_to_list c)).
Proof.
  intros Hwf Hfuel. unfold elements_list, elements, begin_, end_.
  rewrite skip_first_positive. cbn [mbind result_mbind result_bind b e].
  assert (Hr : counts_in_range (map_to_list c)).
  { apply Forall_forall. intros [x n] Hin. simpl.
    apply elem_of_map_to_list in Hin. by eapply Hwf. }
  apply first_positive_in_range in Hr.
  rewrite <- (expand_first_positive (map_to_list c)) in Hfuel |- *.
  destruct (first_positive (map_to_list c)) as [|[y m] r] eqn:Hfirst.
  - destruct fuel as [|fuel]; [simpl in Hfuel; lia|]. done.
  - pose proof (first_positive_head _ _ _ _ Hfirst) as Hm.
    apply Forall_cons in Hr as [Hmr Hr].
    rewrite Iter_ctor_cons, Iter_ctor_end.
    cbn [mbind result_mbind result_bind b e].
    rewrite expand_cons in Hfuel |- *.
    rewrite length_app, length_replicate in Hfuel.
    apply range_for_run; [done | done | done | done | lia].
Qed.

(** *** Counting what is yielded *)

Lemma occurrences_app x (xs ys : list T) :
  occurrences x (xs ++ ys) = occurrences x xs + occurrences x ys.
Proof. unfold occurrences. by rewrite filter_app, length_app. Qed.

Lemma occurrences_replicate x y (k : nat) :
  occurrences x (replicate k y) = if decide (x = y) then k else 0.
Proof.
  unfold occurrences. destruct (decide (x = y)) as [Hxy|Hxy].
  - induction k as [|k IH]; [done|]. cbn [replicate].
    rewrite filter_cons_True by done. simpl. by rewrite IH.
  - induction k as [|k IH]; [done|]. cbn [replicate].
    by rewrite filter_cons_False by done.
Qed.

Lemma occurrences_0 x (xs : list T) : occurrences x xs = 0 → x ∉ xs.
Proof.
  unfold occurrences. intros Hlen Hin.
  assert (Hx : x ∈ filter (x =.) xs) by (by apply list_elem_of_filter).
  apply nil_length_inv in Hlen. rewrite Hlen in Hx. by apply elem_of_nil in Hx.
Qed.

Lemma occurrences_expand l x :
  NoDup l.*1 →
  occurrences x (expand l) = Z.to_nat (default 0%Z (first_seen l x)).
Proof.
  induction l as [|[y n] l IH]; intros Hnd; [done|].
  apply NoDup_cons in Hnd as [Hy Hnd]. simpl in Hy.
  rewrite expand_cons, occurrences_app, occurrences_replicate, IH by done.
  cbn [first_seen]. destruct (decide (x = y)) as [->|Hxy].
  - rewrite decide_True by done.
    apply first_seen_None in Hy. rewrite Hy. simpl. lia.
  - by rewrite decide_False by done.
Qed.

Lemma length_expand l :
  Z.of_nat (length (expand l)) =
    foldr (λ kv s, if bool_decide (0 < kv.2)%Z then kv.2 + s else s)%Z 0%Z l.
Proof.
  induction l as [|[y n] l IH]; [done|].
  rewrite expand_cons, length_app, length_replicate, Nat2Z.inj_add, IH.
  cbn [foldr snd]. case_bool_decide; lia.
Qed.

(** C7: for a counter of [int] counts, the loop over [elements()] ends,
    given the fuel for one round per yield; it yields each element exactly
    [max(count, 0)] times, none with a count of 0 or less, and as many
    items in all as the positive counts add up to. *)
Theorem elements_yield c :
  wf c →
  ∃ xs, (∀ fuel, Z.to_nat (positive_total c) < fuel →
                 elements_list fuel c = Ok xs) ∧
        (∀ x, occurrences x xs = Z.to_nat (Z.max (count_in c x) 0)) ∧
        (∀ x, (count_in c x ≤ 0)%Z → x ∉ xs) ∧
        Z.of_nat (length xs) = positive_total c.
Proof.
  intros Hwf. exists (expand (map_to_list c)).
  assert (Hocc : ∀ x, occurrences x (expand (map_to_list c)) =
                      Z.to_nat (Z.max (count_in c x) 0)).
  { intros x. rewrite occurrences_expand by apply NoDup_fst_map_to_list.
    rewrite first_seen_map_to_list. unfold count_in. lia. }
  assert (Hlen : Z.of_nat (length (expand (map_to_list c))) = positive_total c)
    by apply length_expand.
  split; [|split; [done|split; [|done]]].
  - intros fuel Hfuel. apply elements_list_expand; [done | lia].
  - intros x Hx. apply occurrences_0. rewrite Hocc. lia.
Qed.

End elements.

(** The counter of [main] after [ct -= {{'b', 2}, {'d', 2}}]:
    [{a: 3, b: 0, c: 2, d: -1}]; the loop prints three [a] and two [c]. *)
Definition ct_last : gmap ascii Z :=
  {[ "a"%char := 3%Z; "b"%char := 0%Z; "c"%char := 2%Z; "d"%char := (-1)%Z ]}.

Lemma wf_ct : wf ct_last.
Proof. apply (bool_decide_unpack _). vm_compute. exact I. Qed.

Lemma elements_yield_witness :
  ∃ xs, (∀ fuel, Z.to_nat (positive_total ct_last) < fuel →
                 elements_list fuel ct_last = Ok xs) ∧
        (∀ x, occurrences x xs = Z.to_nat (Z.max (count_in ct_last x) 0)) ∧
        (∀ x, (count_in ct_last x ≤ 0)%Z → x ∉ xs) ∧
        Z.of_nat (length xs) = positive_total ct_last.
Proof. apply (elements_yield ct_last). apply wf_ct. Defined.

Example main_elements :
  elements_list 6 ct_last = Ok ["c"; "c"; "a"; "a"; "a"]%char ∧
  positive_total ct_last = 5%Z.
Proof. vm_compute. done. Qed.

(** [ct.total()] prints [4]. *)
Example main_total : total ct_last = 4%Z.
Proof. vm_compute. reflexivity. Qed.

Example elements_out_of_fuel : elements_list 5 ct_last = OutOfFuel.
Proof. vm_compute. done. Qed.

End Elements_facts.

(** ** Counter: [most_common] *)

Module MostCommon_facts.
Import Counter.

Section most_common.
Context `{Countable T} `{!HeapAlgorithms (cmp (T:=T))}.
Implicit Types (v h s : list (T * Z)) (c : gmap T Z) (x y : T * Z).

(** [x] is at most as common as [y]. *)
Definition le_count (x y : T * Z) : Prop := (x.2 ≤ y.2)%Z.

(** Every element of [h] is at most as common as every element of [s]. *)
Definition below (h s : list (T * Z)) : Prop :=
  ∀ x y, x ∈ h → y ∈ s → le_count x y.

#[local] Instance le_count_trans : Transitive le_count.
Proof. unfold le_count. intros x y z. lia. Qed.

Lemma cmp_false x y : cmp x y = false ↔ le_count y x.
Proof.
  unfold cmp, le_count. rewrite bool_decide_eq_false. lia.
Qed.

(** The first element of a heap is a most common one. *)
Lemma heap_root_max x h : is_heap cmp (x :: h) → ∀ y, y ∈ h → le_count y x.
Proof.
  intros Hheap.
  assert (Hall : ∀ i y, (x :: h) !! i = Some y → le_count y x).
  { induction i as [i IH] using lt_wf_ind. intros y Hy.
    destruct (decide (i = 0)) as [->|Hi].
    - injection Hy as ->. unfold le_count. lia.
    - assert (Hp : (i - 1) `div` 2 < i).
      { apply Nat.le_lt_trans with (i - 1); [apply Nat.Div0.div_le_upper_bound|]; lia. }
      destruct (lookup_lt_is_Some_2 (x :: h) ((i - 1) `div` 2)) as [p Hpy].
      { apply lookup_lt_Some in Hy. lia. }
      etrans; [|by apply (IH _ Hp p)].
      apply cmp_false. apply (Hheap i y p); [lia | done | done]. }
  intros y Hy. apply list_elem_of_lookup in Hy as [i Hi].
  by apply (Hall (S i)).
Qed.

(** The state of the vector after some rounds of the loop: a heap [h],
    then the elements popped so far, [s], in ascending order and none less
    common than an element of the heap. *)
Record popped (h s : list (T * Z)) : Prop := {
  popped_heap : is_heap cmp h;
  popped_sorted : StronglySorted le_count s;
  popped_below : below h s
}.

Lemma popped_step x h s :
  popped (x :: h) s →
  ∃ h', pop_heap (x :: h) = h' ++ [x] ∧ h' ≡ₚ h ∧ popped h' (x :: s).
Proof.
  intros [Hheap Hsorted Hbelow].
  destruct (pop_heap_spec _ x h Hheap) as (h' & Hpop & Hperm & Hheap').
  exists h'. split; [done|]. split; [done|]. split; [done| |].
  - constructor; [done|]. apply Forall_forall. intros y Hy.
    apply Hbelow; [apply elem_of_cons; by left | done].
  - intros a b Ha Hb. rewrite Hperm in Ha.
    apply elem_of_cons in Hb as [->|Hb].
    + by apply (heap_root_max x h).
    + apply Hbelow; [apply elem_of_cons; by right | done].
Qed.

(** The loop can run as many rounds as the heap has elements, and no
    more: the round after the last element is undefined. *)
Lemma pop_loop_popped iters : ∀ h s,
  popped h s → iters ≤ length h →
  ∃ h' s', pop_loop iters (Z.of_nat (length s)) (h ++ s) = Ok (h' ++ s') ∧
           length s' = length s + iters ∧
           h' ++ s' ≡ₚ h ++ s ∧ popped h' s'.
Proof.
  induction iters as [|iters IH]; intros h s Hpopped Hiters.
  - exists h, s. by rewrite Nat.add_0_r.
  - destruct h as [|x h]; [simpl in Hiters; lia|].
    destruct (popped_step x h s Hpopped) as (h1 & Hpop & Hperm & Hpopped1).
    cbn [pop_loop]. rewrite length_app.
    rewrite bool_decide_eq_true_2 by (simpl; lia).
    replace (Z.to_nat (Z.of_nat (length (x :: h) + length s) - Z.of_nat (length s)))
      with (length (x :: h)) by lia.
    rewrite take_app_length, drop_app_length, Hpop, <- app_assoc.
    replace (Z.of_nat (length s) + 1)%Z with (Z.of_nat (length (x :: s)))
      by (simpl; lia).
    change ([x] ++ s) with (x :: s).
    destruct (IH h1 (x :: s) Hpopped1) as (h' & s' & -> & Hlen & Hperm' & Hpopped').
    { rewrite Hperm. simpl in Hiters. lia. }
    exists h', s'. split; [done|]. split; [simpl in Hlen; lia|].
    split; [|done]. rewrite Hperm', Hperm. simpl.
    by rewrite Permutation_middle.
Qed.

Lemma pop_loop_undefined iters : ∀ h s,
  popped h s → length h < iters →
  pop_loop iters (Z.of_nat (length s)) (h ++ s) = Undefined.
Proof.
  induction iters as [|iters IH]; intros h s Hpopped Hiters; [lia|].
  cbn [pop_loop]. rewrite length_app.
  destruct h as [|x h].
  - by rewrite bool_decide_eq_false_2 by (simpl; lia).
  - destruct (popped_step x h s Hpopped) as (h1 & Hpop & Hperm & Hpopped1).
    rewrite bool_decide_eq_true_2 by (simpl; lia).
    replace (Z.to_nat (Z.of_nat (length (x :: h) + length s) - Z.of_nat (length s)))
      with (length (x :: h)) by lia.
    rewrite take_app_length, drop_app_length, Hpop, <- app_assoc.
    replace (Z.of_nat (length s) + 1)%Z with (Z.of_nat (length (x :: s)))
      by (simpl; lia).
    change ([x] ++ s) with (x :: s).
    apply (IH h1 (x :: s) Hpopped1). rewrite Hperm. simpl in Hiters. lia.
Qed.

Lemma popped_make_heap v : popped (make_heap v) [].
Proof.
  split; [apply make_heap_heap | constructor |].
  intros x y _ Hy. by apply elem_of_nil in Hy.
Qed.

Lemma StronglySorted_reverse s :
  StronglySorted le_count s → StronglySorted (flip le_count) (reverse s).
Proof.
  induction 1 as [|x s Hs IH Hx]; [constructor|].
  rewrite reverse_cons. apply StronglySorted_app.
  split; [|split; [done | repeat constructor]].
  intros a b Ha Hb. apply list_elem_of_singleton in Hb as ->.
  rewrite elem_of_reverse in Ha. unfold flip.
  by apply (proj1 (Forall_forall _ _) Hx).
Qed.

(** The count [most_common] works with: the size for an argument of 0. *)
Definition effective (n : Z) (c : gmap T Z) : Z :=
  if bool_decide (n = 0)%Z then Int.of_size (size c) else n.

(** Within the size of the counter [most_common] returns the [n] most
    common entries, most common first. *)
Lemma most_common_ranking n c :
  (0 ≤ effective n c ≤ Z.of_nat (size c))%Z →
  ∃ top rest,
    most_common n c = (c, Ok top) ∧
    Z.of_nat (length top) = effective n c ∧
    StronglySorted (flip le_count) top ∧
    top ++ rest ≡ₚ map_to_list c ∧
    below rest top.
Proof.
  intros Hn. unfold most_common. fold (effective n c). unfold begin_.
  pose proof (make_heap_perm _ (map_to_list c)) as Hperm.
  assert (Hlen : length (make_heap (map_to_list c)) = size c).
  { by rewrite Hperm, length_map_to_list. }
  destruct (pop_loop_popped (Z.to_nat (effective n c)) (make_heap (map_to_list c)) [])
    as (h & s & Hloop & Hs & Hperm' & Hpopped).
  { apply popped_make_heap. }
  { lia. }
  rewrite app_nil_r in Hloop, Hperm'.
  change (Z.of_nat (length [])) with 0%Z in Hloop. simpl in Hs. rewrite Hloop.
  exists (reverse s), h. cbn [mbind result_mbind result_bind].
  assert (Hhs : length (h ++ s) = size c) by (by rewrite Hperm').
  unfold reverse_range. rewrite bool_decide_eq_true_2 by lia.
  replace (length (h ++ s) - Z.to_nat (effective n c)) with (length h)
    by (rewrite length_app; lia).
  rewrite drop_app_length.
  split; [done|]. split; [rewrite length_reverse; lia|].
  split; [apply StronglySorted_reverse, Hpopped|].
  split.
  - by rewrite reverse_Permutation, (comm (++)), Hperm', Hperm.
  - intros x y Hx Hy. rewrite elem_of_reverse in Hy.
    by apply (popped_below _ _ Hpopped).
Qed.

(** Outside of it the call is undefined. *)
Lemma most_common_undefined n c :
  (effective n c < 0 ∨ Z.of_nat (size c) < effective n c)%Z →
  most_common n c = (c, Undefined).
Proof.
  intros Hn. unfold most_common. fold (effective n c). unfold begin_.
  pose proof (make_heap_perm _ (map_to_list c)) as Hperm.
  assert (Hlen : length (make_heap (map_to_list c)) = size c).
  { by rewrite Hperm, length_map_to_list. }
  f_equal. destruct Hn as [Hn|Hn].
  - replace (Z.to_nat (effective n c)) with 0 by lia.
    cbn [pop_loop mbind result_mbind result_bind]. unfold reverse_range.
    by rewrite bool_decide_eq_false_2 by lia.
  - pose proof (pop_loop_undefined (Z.to_nat (effective n c))
                  (make_heap (map_to_list c)) []) as Hloop.
    rewrite app_nil_r in Hloop.
    change (Z.of_nat (length [])) with 0%Z in Hloop.
    rewrite Hloop; [done | apply popped_make_heap | lia].
Qed.

(** With an argument of 0, and with the size itself, all entries are
    returned, most common first, as long as the size is an [int]. *)
Lemma most_common_all (c : gmap T Z) (n : Z) :
  (Z.of_nat (size c) ≤ Int.max_signed)%Z →
  n = 0%Z ∨ n = Z.of_nat (size c) →
  ∃ top, most_common n c = (c, Ok top) ∧
         StronglySorted (flip le_count) top ∧ top ≡ₚ map_to_list c.
Proof.
  intros Hsize Hn.
  assert (Heff : effective n c = Z.of_nat (size c)).
  { unfold effective. case_bool_decide as Hn0.
    - apply wrap_in_range. unfold Int.in_range, Int.min_signed, Int.max_signed in *.
      lia.
    - by destruct Hn. }
  destruct (most_common_ranking n c) as (top & rest & Hcall & Hlen & Hsorted & Hperm & _);
    [lia|].
  exists top. split; [done|]. split; [done|].
  assert (Hrest : length rest = 0).
  { apply Permutation_length in Hperm.
    rewrite length_app, length_map_to_list in Hperm. lia. }
  apply nil_length_inv in Hrest. subst rest. by rewrite app_nil_r in Hperm.
Qed.

Lemma most_common_default_all (c : gmap T Z) :
  (Z.of_nat (size c) ≤ Int.max_signed)%Z →
  ∃ top, most_common_default c = (c, Ok top) ∧
         StronglySorted (flip le_count) top ∧ top ≡ₚ map_to_list c.
Proof. intros Hsize. apply most_common_all; [done | by left]. Qed.

End most_common.
End MostCommon_facts.

(** ** The binary heap meets the contract of the heap algorithms *)

Section binary_heap_facts.
Context {A : Type} (cmp : A → A → bool).
Implicit Types (v : list A) (i j k p c len lo : nat).

(** [cmp] is a strict weak ordering, as [<algorithm>] demands. *)
Hypothesis cmp_asym : ∀ a b, cmp a b = true → cmp b a = false.
Hypothesis cmp_negtrans : ∀ a b d,
  cmp a b = false → cmp b d = false → cmp a d = false.

Lemma cmp_irrefl a : cmp a a = false.
Proof.
  destruct (cmp a a) eqn:Haa; [|done].
  pose proof (cmp_asym _ _ Haa). congruence.
Qed.

(** [c] is a child of [p]. *)
Definition child (p c : nat) : Prop := c = 2 * p + 1 ∨ c = 2 * p + 2.

(** The element at [p] is not below the one at [c]. *)
Definition ordered (v : list A) (p c : nat) : Prop :=
  ∀ a b, v !! p = Some a → v !! c = Some b → cmp a b = false.

(** Among the first [len] positions every parent from [lo] on is in order
    with its children. *)
Definition heap_at (v : list A) (len lo : nat) : Prop :=
  ∀ p c, lo ≤ p → child p c → c < len → ordered v p c.

Lemma child_parent p c : child p c ↔ 0 < c ∧ (c - 1) `div` 2 = p.
Proof.
  unfold child. split.
  - intros [->| ->]; (split; [lia|]); symmetry.
    + apply (Nat.div_unique _ 2 p 0); lia.
    + apply (Nat.div_unique _ 2 p 1); lia.
  - intros [Hc <-]. pose proof (Nat.div_mod_eq (c - 1) 2) as Hdm.
    pose proof (Nat.mod_upper_bound (c - 1) 2). lia.
Qed.

Lemma is_heap_heap_at v : is_heap cmp v ↔ heap_at v (length v) 0.
Proof.
  unfold is_heap, heap_at, ordered. split.
  - intros Hheap p c _ Hpc _ a b Ha Hb.
    apply child_parent in Hpc as [Hc <-]. by apply (Hheap c b a).
  - intros Hheap i x p Hi Hx Hp.
    apply (Hheap ((i - 1) `div` 2) i); [lia | | | done | done].
    + by apply child_parent.
    + by apply lookup_lt_Some in Hx.
Qed.

(** *** [swap] *)

Lemma swap_lookup v i j a b k :
  v !! i = Some a → v !! j = Some b →
  swap v i j !! k =
    if decide (k = i) then Some b else if decide (k = j) then Some a else v !! k.
Proof.
  intros Hi Hj. unfold swap. rewrite Hi, Hj.
  pose proof (lookup_lt_Some _ _ _ Hi). pose proof (lookup_lt_Some _ _ _ Hj).
  destruct (decide (k = i)) as [->|Hki].
  - by rewrite list_lookup_insert_eq by (by rewrite length_insert).
  - rewrite list_lookup_insert_ne by done.
    destruct (decide (k = j)) as [->|Hkj].
    + by rewrite list_lookup_insert_eq.
    + by rewrite list_lookup_insert_ne.
Qed.

Lemma length_swap v i j : length (swap v i j) = length v.
Proof.
  unfold swap. destruct (v !! i), (v !! j); by rewrite ?length_insert.
Qed.

Lemma insert_Permutation v i a b :
  v !! i = Some a → <[i := b]> v ≡ₚ b :: delete i v.
Proof.
  revert i. induction v as [|x v IH]; intros [|i] Hi; simplify_eq/=; [done|].
  rewrite (IH i) by done. apply Permutation_swap.
Qed.

Lemma swap_Permutation v i j : swap v i j ≡ₚ v.
Proof.
  unfold swap. destruct (v !! i) as [a|] eqn:Hi; [|done].
  destruct (v !! j) as [b|] eqn:Hj; [|done].
  destruct (decide (i = j)) as [->|Hij].
  - simplify_eq. rewrite list_insert_insert_eq. by rewrite list_insert_id.
  - assert (Hi' : <[j := a]> v !! i = Some a)
      by (by rewrite list_lookup_insert_ne).
    etrans; [apply (insert_Permutation _ i a b Hi')|].
    etrans; [|symmetry; apply (delete_Permutation v j b Hj)].
    apply Permutation_skip.
    apply (Permutation_cons_inv (a := a)).
    etrans; [symmetry; apply (delete_Permutation _ i a Hi')|].
    apply (insert_Permutation v j b a Hj).
Qed.

(** *** [larger] *)

Lemma larger_cases v len i j :
  (larger cmp v len i j = i ∧
     (j < len → ordered v i j)) ∨
  (larger cmp v len i j = j ∧ j < len ∧
     ∃ a b, v !! i = Some a ∧ v !! j = Some b ∧ cmp a b = true).
Proof.
  unfold larger, ordered.
  destruct (v !! i) as [a|] eqn:Hi; [|left; split; [done | by intros ??? [=]]].
  destruct (v !! j) as [b|] eqn:Hj; [|left; split; [done | by intros ???? [=]]].
  case_bool_decide as Hlen; simpl.
  - destruct (cmp a b) eqn:Hab.
    + right. split; [done|]. split; [done|]. by exists a, b.
    + left. split; [done|]. intros _ ?? [= <-] [= <-]. done.
  - left. split; [done|]. intros ?. lia.
Qed.

(** The choice [sift_down] makes at [i]: either [i] is in order with its
    children, or the greater child [top] is picked, which is above both
    the element at [i] and its sibling. *)
Lemma top_cases v len i :
  let top := larger cmp v len (larger cmp v len i (2 * i + 1)) (2 * i + 2) in
  (top = i ∧ ∀ c, child i c → c < len → ordered v i c) ∨
  (child i top ∧ top < len ∧
     ∃ x t, v !! i = Some x ∧ v !! top = Some t ∧ cmp t x = false ∧
            ∀ c, child i c → c < len → ∀ b, v !! c = Some b → cmp t b = false).
Proof.
  intros top. subst top. unfold child.
  destruct (larger_cases v len i (2 * i + 1))
    as [[-> Hl]|(-> & Hllen & x & l & Hx & Hlv & Hxl)];
  [destruct (larger_cases v len i (2 * i + 2))
     as [[-> Hr]|(-> & Hrlen & x & r & Hx & Hrv & Hxr)]
  |destruct (larger_cases v len (2 * i + 1) (2 * i + 2))
     as [[-> Hr]|(-> & Hrlen & l' & r & Hl' & Hrv & Hlr)]].
  - left. split; [done|]. intros c [->| ->] Hc; auto.
  - right. split; [by right|]. split; [done|]. exists x, r.
    split; [done|]. split; [done|]. split; [by apply cmp_asym|].
    intros c [->| ->] Hc b Hb.
    + apply cmp_negtrans with x; [by apply cmp_asym | by apply (Hl Hc)].
    + simplify_eq. apply cmp_irrefl.
  - right. split; [by left|]. split; [done|]. exists x, l.
    split; [done|]. split; [done|]. split; [by apply cmp_asym|].
    intros c [->| ->] Hc b Hb.
    + simplify_eq. apply cmp_irrefl.
    + by apply (Hr Hc).
  - simplify_eq. right. split; [by right|]. split; [done|]. exists x, r.
    split; [done|]. split; [done|].
    split; [apply cmp_negtrans with l; by apply cmp_asym|].
    intros c [->| ->] Hc b Hb.
    + simplify_eq. by apply cmp_asym.
    + simplify_eq. apply cmp_irrefl.
Qed.

(** *** [sift_down] *)

(** When every parent from [lo] on other than [i] is in order with its
    children, and the parent of [i] with the children of [i], sifting at
    [i] puts every parent from [lo] on in order.  Positions before [i] and
    from [len] on are left alone. *)
Lemma sift_down_spec fuel : ∀ v len lo i,
  len ≤ length v → lo ≤ i → len - i ≤ fuel →
  (∀ p c, lo ≤ p → p ≠ i → child p c → c < len → ordered v p c) →
  (∀ g c, lo ≤ g → child g i → child i c → c < len → ordered v g c) →
  heap_at (sift_down cmp fuel v len i) len lo ∧
  sift_down cmp fuel v len i ≡ₚ v ∧
  (∀ k, k < i ∨ len ≤ k → sift_down cmp fuel v len i !! k = v !! k).
Proof.
  induction fuel as [|fuel IH]; intros v len lo i Hlen Hlo Hfuel Ha Hb.
  - simpl. split; [|done]. intros p c Hp Hpc Hc.
    apply Ha; [done | | done | done]. unfold child in Hpc. lia.
  - cbn [sift_down].
    destruct (top_cases v len i)
      as [[Htop Hord]|(Hchild & Htoplen & x & t & Hx & Ht & Htx & Hsib)].
    + rewrite Htop, bool_decide_eq_true_2 by done. split; [|done].
      intros p c Hp Hpc Hc.
      destruct (decide (p = i)) as [->|Hpi]; [by apply Hord | by apply Ha].
    + set (top := larger cmp v len (larger cmp v len i (2 * i + 1)) (2 * i + 2)) in *.
      assert (Hitop : i < top) by (unfold child in Hchild; lia).
      rewrite bool_decide_eq_false_2 by lia.
      destruct (IH (swap v i top) len lo top) as (Hheap & Hperm & Hframe).
      * by rewrite length_swap.
      * lia.
      * lia.
      * intros p c Hp Hptop Hpc Hc a b.
        rewrite !(swap_lookup v i top x t) by done.
        assert (Hpc' : p < c) by (unfold child in Hpc; lia).
        destruct (decide (p = i)) as [->|Hpi].
        -- intros [= <-]. rewrite decide_False by lia.
           destruct (decide (c = top)) as [->|Hctop].
           ++ by intros [= <-].
           ++ intros Hcb. by apply (Hsib c).
        -- rewrite (decide_False (P := p = top)) by done. intros Hpa.
           destruct (decide (c = i)) as [->|Hci].
           ++ intros [= <-]. by apply (Hb p top).
           ++ destruct (decide (c = top)) as [->|Hctop].
              ** unfold child in Hpc, Hchild. lia.
              ** intros Hcb. by apply (Ha p c).
      * intros g c Hg Hgtop Htopc Hc a b.
        rewrite !(swap_lookup v i top x t) by done.
        assert (g = i) as -> by (unfold child in Hgtop, Hchild; lia).
        assert (Hc' : top < c) by (unfold child in Htopc; lia).
        rewrite decide_True by done. intros [= <-].
        rewrite !decide_False by lia. intros Hcb.
        apply (Ha top c); [lia | lia | done | done | done | done].
      * split; [done|]. split; [by rewrite Hperm, swap_Permutation|].
        intros k Hk. rewrite Hframe by lia.
        rewrite (swap_lookup v i top x t) by done.
        by rewrite !decide_False by lia.
Qed.

Lemma length_sift_down fuel v len i :
  length (sift_down cmp fuel v len i) = length v.
Proof.
  revert v i. induction fuel as [|fuel IH]; intros v i; [done|].
  cbn [sift_down]. case_bool_decide; [done|]. by rewrite IH, length_swap.
Qed.

(** *** [heapify] is a [make_heap] *)

Lemma heapify_from v cnt : ∀ lo,
  heap_at v (length v) (lo + cnt) →
  let v' := foldr (λ i v, sift_down cmp (length v) v (length v) i) v (seq lo cnt) in
  heap_at v' (length v) lo ∧ v' ≡ₚ v.
Proof.
  induction cnt as [|cnt IH]; intros lo Hheap.
  - simpl. by rewrite Nat.add_0_r in Hheap.
  - cbn [seq foldr]. destruct (IH (S lo)) as [Hheap' Hperm].
    { by replace (S lo + cnt) with (lo + S cnt) by lia. }
    set (v1 := foldr _ v (seq (S lo) cnt)) in *.
    assert (Hlen : length v1 = length v) by (by rewrite Hperm).
    destruct (sift_down_spec (length v1) v1 (length v1) lo lo)
      as (Hheap'' & Hperm' & _); [done | done | lia | | |].
    + intros p c Hp Hplo Hpc Hc. rewrite Hlen in Hc.
      apply Hheap'; [lia | done | done].
    + intros g c Hg Hglo. unfold child in Hglo. lia.
    + split; [|by rewrite Hperm'].
      intros p c Hp Hpc Hc. rewrite <- Hlen in Hc. by apply Hheap''.
Qed.

Lemma heapify_Permutation v : heapify cmp v ≡ₚ v.
Proof.
  unfold heapify. apply (heapify_from v (length v `div` 2) 0).
  intros p c Hp Hpc Hc. unfold child in Hpc.
  pose proof (Nat.div_mod_eq (length v) 2).
  pose proof (Nat.mod_upper_bound (length v) 2). lia.
Qed.

Lemma heapify_is_heap v : is_heap cmp (heapify cmp v).
Proof.
  apply is_heap_heap_at.
  assert (Hlen : length (heapify cmp v) = length v)
    by (by rewrite heapify_Permutation).
  rewrite Hlen. unfold heapify. apply (heapify_from v (length v `div` 2) 0).
  intros p c Hp Hpc Hc. unfold child in Hpc.
  pose proof (Nat.div_mod_eq (length v) 2).
  pose proof (Nat.mod_upper_bound (length v) 2). lia.
Qed.

(** *** [sift_pop] is a [pop_heap] *)

Lemma sift_pop_spec x v :
  is_heap cmp (x :: v) →
  ∃ v', sift_pop cmp (x :: v) = v' ++ [x] ∧ v' ≡ₚ v ∧ is_heap cmp v'.
Proof.
  intros Hheap. apply is_heap_heap_at in Hheap. unfold sift_pop.
  rewrite length_swap. cbn [length]. rewrite Nat.sub_succ, Nat.sub_0_r.
  destruct (lookup_lt_is_Some_2 (x :: v) (length v)) as [y Hy]; [simpl; lia|].
  assert (Hx : (x :: v) !! 0 = Some x) by done.
  set (v0 := swap (x :: v) 0 (length v)).
  assert (Hv0 : ∀ k, v0 !! k =
    if decide (k = 0) then Some y
    else if decide (k = length v) then Some x else (x :: v) !! k)
    by (intros k; by apply swap_lookup).
  destruct (sift_down_spec (S (length v)) v0 (length v) 0 0)
    as (Hheap' & Hperm & Hframe).
  { unfold v0. rewrite length_swap. simpl. lia. }
  { done. }
  { lia. }
  { intros p c _ Hp Hpc Hc a b. rewrite !Hv0.
    assert (p < c) by (unfold child in Hpc; lia).
    rewrite !decide_False by lia. apply Hheap; [lia | done | simpl; lia]. }
  { intros g c _ Hg. unfold child in Hg. lia. }
  set (r := sift_down cmp (S (length v)) v0 (length v) 0) in *.
  assert (Hr : length r = S (length v)).
  { unfold r, v0. by rewrite length_sift_down, length_swap. }
  assert (Hlast : r !! length v = Some x).
  { rewrite Hframe by lia. rewrite Hv0.
    destruct (decide (length v = 0)) as [Hnil|Hnil].
    - rewrite Hnil in Hy. by simplify_eq.
    - by rewrite decide_True. }
  exists (take (length v) r).
  assert (Hsplit : r = take (length v) r ++ [x]).
  { rewrite <- (take_drop (length v) r) at 1. f_equal.
    apply list_eq. intros [|k].
    - by rewrite lookup_drop, Nat.add_0_r.
    - rewrite lookup_drop. simpl. apply lookup_ge_None. lia. }
  split; [done|]. split.
  - apply (Permutation_cons_inv (a := x)).
    etrans; [|apply (swap_Permutation (x :: v) 0 (length v))]. fold v0.
    etrans; [|apply Hperm].
    rewrite Permutation_cons_append. by rewrite <- Hsplit.
  - apply is_heap_heap_at. intros p c _ Hpc Hc a b Ha Hb.
    rewrite length_take, Hr in Hc.
    rewrite lookup_take_lt in Ha by (unfold child in Hpc; lia).
    rewrite lookup_take_lt in Hb by lia.
    apply (Hheap' p c); [lia | done | lia | done | done].
Qed.

End binary_heap_facts.

(** ** [most_common] over the binary heap *)

Module MostCommon_binary_heap.
Import Counter MostCommon_facts.

Section instance.
Context `{Countable T}.
Implicit Types (x y z : T * Z).

Lemma cmp_count_asym x y : cmp x y = true → cmp y x = false.
Proof.
  unfold cmp. rewrite bool_decide_eq_true, bool_decide_eq_false. lia.
Qed.

Lemma cmp_count_negtrans x y z :
  cmp x y = false → cmp y z = false → cmp x z = false.
Proof. unfold cmp. rewrite !bool_decide_eq_false. lia. Qed.

#[global] Instance binary_heap : HeapAlgorithms (cmp (T:=T)) := {|
  make_heap := heapify cmp;
  pop_heap := sift_pop cmp;
  make_heap_perm := heapify_Permutation cmp cmp_count_asym cmp_count_negtrans;
  make_heap_heap := heapify_is_heap cmp cmp_count_asym cmp_count_negtrans;
  pop_heap_spec := sift_pop_spec cmp cmp_count_asym cmp_count_negtrans
|}.

End instance.

(** The counter of [main] after [ct.update({'a', 'd', 'a'})]:
    [{a: 3, b: 2, c: 2, d: 1}]. *)
Definition ct : gmap ascii Z :=
  {[ "a"%char := 3%Z; "b"%char := 2%Z; "c"%char := 2%Z; "d"%char := 1%Z ]}.

Example main_most_common_1 : most_common 1 ct = (ct, Ok [("a"%char, 3%Z)]).
Proof. vm_compute. reflexivity. Qed.

Example main_most_common_all :
  most_common 0 ct =
    (ct, Ok [("a"%char, 3%Z); ("c"%char, 2%Z); ("b"%char, 2%Z); ("d"%char, 1%Z)]).
Proof. vm_compute. reflexivity. Qed.

Example most_common_size : most_common 4 ct = most_common 0 ct.
Proof. vm_compute. reflexivity. Qed.

(** C1 at an argument beyond the size: on the counter [{a: 1}],
    [most_common(2)] calls [std::pop_heap] on an empty range and reads
    [v.end() - 2], which is before [v.begin()]; the call is undefined, where
    the claim has it return the one entry. *)
Theorem most_common_beyond_size :
  most_common 2 ({[ "a"%char := 1%Z ]} : gmap ascii Z) =
    ({[ "a"%char := 1%Z ]}, Undefined).
Proof. apply most_common_undefined. right. vm_compute. reflexivity. Qed.

Example most_common_negative : most_common (-1) ct = (ct, Undefined).
Proof. vm_compute. reflexivity. Qed.

End MostCommon_binary_heap.

(** ** ChainMap *)

Module ChainMap_facts.
Import ChainMap.

Section ChainMap_facts.
Context `{Countable K} {V : Type} (V0 : V).
Implicit Types (st : store (gmap K V)) (cm : t) (k : K) (v u : V) (a b : addr).

(** Layer [i] of [l] is the first, front to back, to hold [k], and holds
    [v] for it. *)
Definition first_layer (st : store (gmap K V)) (l : list addr) (k : K)
    (i : nat) (v : V) : Prop :=
  ∃ a, l !! i = Some a ∧ st a !! k = Some v ∧
       ∀ j b, j < i → l !! j = Some b → st b !! k = None.

Lemma at_Some st cm k v :
  at_ st cm k = Some v ↔ ∃ i, first_layer st (maps cm) k i v.
Proof.
  unfold first_layer. induction cm as [map|map B IH]; simpl; unfold map_at.
  - split.
    + intros Hk. exists 0, map. split; [done|]. split; [done|]. intros; lia.
    + intros (i & a & Hi & Hk & _). destruct i as [|i]; [|done].
      by simplify_eq/=.
  - destruct (st map !! k) as [u|] eqn:Hmap.
    + split.
      * intros [= ->]. exists 0, map. split; [done|]. split; [done|].
        intros; lia.
      * intros ([|i] & a & Hi & Hk & Hfirst); simplify_eq/=; [congruence|].
        specialize (Hfirst 0 map). rewrite Hmap in Hfirst.
        discriminate Hfirst; [lia | done].
    + rewrite IH. split.
      * intros (i & a & Hi & Hk & Hfirst). exists (S i), a.
        split; [done|]. split; [done|].
        intros [|j] b Hj Hb; simplify_eq/=; [done|].
        apply (Hfirst j); [lia | done].
      * intros ([|i] & a & Hi & Hk & Hfirst); simplify_eq/=.
        exists i, a. split; [done|]. split; [done|].
        intros j b Hj Hb. apply (Hfirst (S j)); [lia | done].
Qed.

Lemma at_None st cm k :
  at_ st cm k = None ↔ ∀ a, a ∈ maps cm → st a !! k = None.
Proof.
  induction cm as [map|map B IH]; simpl; unfold map_at.
  - split.
    + by intros Hk a ->%list_elem_of_singleton.
    + intros Hall. apply Hall, list_elem_of_singleton. done.
  - destruct (st map !! k) as [u|] eqn:Hmap.
    + split; [done|]. intros Hall.
      rewrite <- Hmap. apply Hall, elem_of_cons. by left.
    + rewrite IH. split.
      * intros Hall a [->|Ha]%elem_of_cons; [done | by apply Hall].
      * intros Hall a Ha. apply Hall, elem_of_cons. by right.
Qed.

(** C5: [at] returns the value of the first layer, front to back, that
    holds the key, and throws exactly when no layer holds it. *)
Theorem at_first_layer st cm k :
  (∀ v, at_ st cm k = Some v ↔ ∃ i, first_layer st (maps cm) k i v) ∧
  (at_ st cm k = None ↔ ∀ a, a ∈ maps cm → st a !! k = None).
Proof. split; [intros v; apply at_Some | apply at_None]. Qed.

(** *** [operator[]] *)

(** C4: [operator[]] returns a reference into the front layer, and writes
    to that layer alone.  On a key the front layer holds it returns the
    value there and changes nothing, whatever the deeper layers are; on a
    key first held by a deeper layer, that layer's value is stored in the
    front layer and returned; on a key no layer holds, the
    value-initialised [V0] is stored in the front layer and returned. *)
Theorem subscript_read_write st cm k :
  let map := front cm in
  let st' := (subscript V0 st cm k).1 in
  let v := (subscript V0 st cm k).2 in
  st' map !! k = Some v ∧
  (∀ a, a ≠ map → st' a = st a) ∧
  (∀ u, st map !! k = Some u →
        v = u ∧ st' map = st map ∧
        subscript V0 st cm k = subscript V0 st (Single map) k) ∧
  (∀ i u, 0 < i → first_layer st (maps cm) k i u →
          v = u ∧ st' map = <[k := u]> (st map)) ∧
  ((∀ a, a ∈ maps cm → st a !! k = None) →
     v = V0 ∧ st' map = <[k := V0]> (st map)).
Proof.
  intros map st' v. subst map st' v.
  assert (Hsingle : ∀ map,
    subscript V0 st (Single map) k =
      match st map !! k with
      | Some u => (upd st map (st map), u)
      | None => (upd st map (<[k := V0]> (st map)), V0)
      end).
  { intros map. simpl. unfold map_subscript. by destruct (st map !! k). }
  assert (Hchain : ∀ map B,
    subscript V0 st (Chain map B) k =
      match st map !! k with
      | Some u => (upd st map (<[k := u]> (st map)), u)
      | None =>
          match at_ st B k with
          | Some u => (upd st map (<[k := u]> (<[k := V0]> (st map))), u)
          | None => (upd st map (<[k := V0]> (st map)), V0)
          end
      end).
  { intros map B. cbn [subscript at_]. unfold map_at, map_subscript.
    destruct (st map !! k); [done|]. by destruct (at_ st B k). }
  destruct cm as [map|map B]; cbn [front].
  - rewrite Hsingle. destruct (st map !! k) as [u|] eqn:Hmap; cbn [fst snd].
    + rewrite upd_eq. split; [done|]. split; [intros; by apply upd_ne|].
      split; [by intros ? [= ->]|]. split.
      * intros i u' Hi (a & Ha & _). destruct i; [lia | done].
      * intros Hall. rewrite Hall in Hmap; [done|].
        by apply list_elem_of_singleton.
    + rewrite upd_eq, lookup_insert_eq.
      split; [done|]. split; [intros; by apply upd_ne|].
      split; [done|]. split; [|done].
      intros i u' Hi (a & Ha & _). destruct i; [lia | done].
  - rewrite Hchain, Hsingle.
    destruct (st map !! k) as [u|] eqn:Hmap; cbn [fst snd].
    + rewrite upd_eq, lookup_insert_eq, (insert_id _ _ _ Hmap).
      split; [done|]. split; [intros; by apply upd_ne|].
      split; [by intros ? [= ->]|]. split.
      * intros i u' Hi (a & Ha & Hk & Hfirst).
        specialize (Hfirst 0 map Hi eq_refl). congruence.
      * intros Hall. rewrite Hall in Hmap; [done|]. apply elem_of_cons. by left.
    + destruct (at_ st B k) as [u|] eqn:Hat; cbn [fst snd];
        rewrite upd_eq, ?insert_insert_eq, lookup_insert_eq.
      * split; [done|]. split; [intros; by apply upd_ne|].
        split; [done|]. split.
        -- intros i u' Hi Hfirst.
           assert (Hcm : at_ st (Chain map B) k = Some u')
             by (apply at_Some; by exists i).
           simpl in Hcm. unfold map_at in Hcm. rewrite Hmap in Hcm.
           split; [congruence|]. by simplify_eq.
        -- intros Hall. apply at_Some in Hat.
           destruct Hat as (i & a & Ha & Hk & _).
           rewrite Hall in Hk; [done|]. apply elem_of_cons. right.
           by apply list_elem_of_lookup_2 in Ha.
      * split; [done|]. split; [intros; by apply upd_ne|].
        split; [done|]. split; [|done].
        intros i u' Hi Hfirst.
        assert (Hcm : at_ st (Chain map B) k = Some u')
          by (apply at_Some; by exists i).
        simpl in Hcm. unfold map_at in Hcm. rewrite Hmap in Hcm. congruence.
Qed.

(** *** [one_map] *)

Lemma lookup_one_map_into st cm : ∀ (one : gmap K V) k,
  one_map_into st cm one !! k =
    match one !! k with
    | Some v => Some v
    | None => at_ st cm k
    end.
Proof.
  induction cm as [map|map B IH]; intros one k; simpl.
  - apply lookup_insert_range_map.
  - rewrite IH, lookup_insert_range_map. unfold map_at.
    by destruct (one !! k), (st map !! k).
Qed.

Lemma lookup_one_map st cm k : one_map st cm !! k = at_ st cm k.
Proof.
  destruct cm as [map|map B]; [done|].
  unfold one_map. by rewrite lookup_one_map_into, lookup_empty.
Qed.

(** C9: the map [one_map()] returns, a value of its own, has for keys the
    keys of all layers, and gives each the value of the front-most layer
    that holds it. *)
Theorem one_map_flatten st cm :
  dom (one_map st cm) = ⋃ ((λ a, dom (st a)) <$> maps cm) ∧
  (∀ k v, one_map st cm !! k = Some v ↔ ∃ i, first_layer st (maps cm) k i v).
Proof.
  split.
  - apply set_eq. intros k.
    rewrite elem_of_dom, lookup_one_map, elem_of_union_list.
    split.
    + intros [v (i & a & Ha & Hk & _)%at_Some].
      exists (dom (st a)). split.
      * apply list_elem_of_fmap. exists a. split; [done|].
        by apply list_elem_of_lookup_2 in Ha.
      * apply elem_of_dom. by exists v.
    + intros (X & (a & -> & Ha)%list_elem_of_fmap & Hk).
      apply elem_of_dom in Hk.
      destruct (at_ st cm k) as [v|] eqn:Hat; [by exists v|].
      rewrite at_None in Hat. rewrite (Hat a Ha) in Hk. by destruct Hk.
  - intros k v. rewrite lookup_one_map. apply at_Some.
Qed.

End ChainMap_facts.

(** The maps of [main], [mp1], [mp2] and [mp3], at the addresses 1, 2 and 3,
    [ChainMap cmp(mp2, mp3)] and [n_cmp = cmp.new_child(mp1)]. *)
Definition stm : store (gmap ascii Z) :=
  λ a, match a with
       | 1 => {[ "a"%char := 1%Z; "b"%char := 2%Z ]}
       | 2 => {[ "b"%char := 3%Z; "c"%char := 4%Z ]}
       | 3 => {[ "c"%char := 5%Z; "d"%char := 6%Z ]}
       | _ => ∅
       end.
Definition cmp : t := Chain 2 (Single 3).
Definition n_cmp : t := new_child cmp 1.

(** [n_cmp.one_map()] prints [a1b2c4d6]. *)
Example main_one_map :
  one_map stm n_cmp =
    {[ "a"%char := 1%Z; "b"%char := 2%Z; "c"%char := 4%Z; "d"%char := 6%Z ]}.
Proof. vm_compute. reflexivity. Qed.

(** [cmp.at('b')], [cmp.at('c')], [cmp.at('d')] print [346], and
    [cmp.at('a')] throws. *)
Example main_at :
  at_ stm cmp "b"%char = Some 3%Z ∧ at_ stm cmp "c"%char = Some 4%Z ∧
  at_ stm cmp "d"%char = Some 6%Z ∧ at_ stm cmp "a"%char = None.
Proof. vm_compute. done. Qed.

(** [cmp.erase('c'), cmp['d'] += 1] leaves [b3d7] in [mp2] and [c5d6] in
    [mp3]. *)
Example main_erase_subscript :
  let '(st1, _) := erase stm cmp "c"%char in
  let '(st2, d) := subscript 0%Z st1 cmp "d"%char in
  let st3 := upd st2 (front cmp) (<[ "d"%char := Int.add d 1 ]> (st2 (front cmp))) in
  st3 2 = {[ "b"%char := 3%Z; "d"%char := 7%Z ]} ∧
  st3 3 = {[ "c"%char := 5%Z; "d"%char := 6%Z ]}.
Proof. vm_compute. done. Qed.

(** [cmp.get_map(1)] is [mp3], and [cmp.get_map(2)] throws. *)
Example main_get_map : get_map cmp 1 = Some 3 ∧ get_map cmp 2 = None.
Proof. done. Qed.

Lemma subscript_read_write_witness :
  ((subscript 0%Z stm cmp "b"%char).2 = 3%Z ∧
   (subscript 0%Z stm cmp "b"%char).1 2 = stm 2 ∧
   subscript 0%Z stm cmp "b"%char = subscript 0%Z stm (Single 2) "b"%char) ∧
  ((subscript 0%Z stm cmp "d"%char).2 = 6%Z ∧
   (subscript 0%Z stm cmp "d"%char).1 2 = <[ "d"%char := 6%Z ]> (stm 2)) ∧
  ((subscript 0%Z stm cmp "a"%char).2 = 0%Z ∧
   (subscript 0%Z stm cmp "a"%char).1 2 = <[ "a"%char := 0%Z ]> (stm 2)).
Proof.
  split; [|split].
  - pose proof (subscript_read_write 0%Z stm cmp "b"%char) as Hthm.
    cbv zeta in Hthm. destruct Hthm as (_ & _ & Hfront & _ & _).
    apply (Hfront 3%Z). reflexivity.
  - pose proof (subscript_read_write 0%Z stm cmp "d"%char) as Hthm.
    cbv zeta in Hthm. destruct Hthm as (_ & _ & _ & Hdeep & _).
    apply (Hdeep 1 6%Z); [lia|]. exists 3.
    split; [reflexivity|]. split; [reflexivity|].
    intros j b Hj Hb. assert (j = 0) as -> by lia.
    injection Hb as <-. reflexivity.
  - pose proof (subscript_read_write 0%Z stm cmp "a"%char) as Hthm.
    cbv zeta in Hthm. destruct Hthm as (_ & _ & _ & _ & Hnone).
    apply Hnone. intros a Ha.
    apply elem_of_cons in Ha as [->|Ha]; [reflexivity|].
    apply list_elem_of_singleton in Ha as ->. reflexivity.
Defined.

Lemma at_first_layer_witness :
  (∃ i, first_layer stm (maps cmp) "d"%char i 6%Z) ∧
  (∀ a, a ∈ maps cmp → stm a !! "a"%char = None).
Proof.
  split.
  - apply (proj1 (at_first_layer stm cmp "d"%char) 6%Z). reflexivity.
  - apply (proj2 (at_first_layer stm cmp "a"%char)). reflexivity.
Defined.

Lemma one_map_flatten_witness :
  dom (one_map stm n_cmp) = ⋃ ((λ a, dom (stm a)) <$> maps n_cmp) ∧
  ∃ i, first_layer stm (maps n_cmp) "c"%char i 4%Z.
Proof.
  split.
  - apply (one_map_flatten stm n_cmp).
  - apply (proj2 (one_map_flatten stm n_cmp) "c"%char 4%Z). reflexivity.
Defined.

End ChainMap_facts.


(** * Further properties *)

#[local] Set Warnings "-clear-no-such-hyp".

(** ** defaultdict: what an access does to the dictionary *)

Module defaultdict_more.
Import defaultdict defaultdict_facts.

Section defaultdict_more.
Context `{Countable K} {V : Type} (V0 : V) {W : Type}.
Implicit Types (d : t (K:=K) (V:=V) (W:=W)) (k : K) (w : world (W:=W)).

(** [for (const K& k : ks) d[k];]: the dictionary and the state after
    reading the keys of [ks] one after the other. *)
Definition read_all d (ks : list K) w :
    t (K:=K) (V:=V) (W:=W) * world (W:=W) :=
  foldl (λ dw k, let '(d', w', _) := subscript V0 dw.1 k dw.2 in (d', w'))
        (d, w) ks.

(** X1: [operator[]] and [at], which never throws, only ever add the key asked
    for: the key is present afterwards with the value returned, every entry
    there was is still there with its value, the factory is the same, and
    the factory has been entered at most once. *)
Theorem access_only_adds d k w :
  let '(d', w', v) := subscript V0 d k w in
  at_ V0 d k w = (d', w', v) ∧
  base d' !! k = Some v ∧
  dom (base d') = {[k]} ∪ dom (base d) ∧
  (∀ k' v', base d !! k' = Some v' → base d' !! k' = Some v') ∧
  f d' = f d ∧
  calls w ≤ calls w' ≤ S (calls w).
Proof.
  destruct (base d !! k) as [u|] eqn:Hk.
  - rewrite (subscript_hit _ _ _ _ _ Hk). unfold at_.
    rewrite (subscript_hit _ _ _ _ _ Hk).
    split; [done|]. split; [done|]. split.
    + apply elem_of_dom_2 in Hk. set_solver.
    + split; [done|]. split; [done | lia].
  - rewrite (subscript_miss _ _ _ _ Hk). unfold at_.
    rewrite (subscript_miss _ _ _ _ Hk). cbn [base f].
    split; [done|]. split; [apply lookup_insert_eq|].
    split; [apply dom_insert_L|]. split.
    + intros k' v' Hk'. rewrite lookup_insert_ne; [done | congruence].
    + split; [done|]. unfold invoke. destruct (f d (globals w)). simpl. lia.
Qed.

Lemma read_all_cons d k ks w :
  read_all d (k :: ks) w =
    read_all (subscript V0 d k w).1.1 ks (subscript V0 d k w).1.2.
Proof.
  unfold read_all. cbn [foldl fst snd].
  by destruct (subscript V0 d k w) as [[d' w'] v].
Qed.

(** X2: Reading a sequence of keys enters the factory once for each distinct
    key that was absent, and leaves exactly the old keys and the keys read
    in the dictionary. *)
Theorem read_all_calls ks : ∀ d w,
  calls (read_all d ks w).2 =
    calls w + size (list_to_set ks ∖ dom (base d) : gset K) ∧
  dom (base (read_all d ks w).1) = dom (base d) ∪ list_to_set ks.
Proof.
  induction ks as [|k ks IH]; intros d w.
  - cbn [read_all foldl fst snd list_to_set].
    split; [|set_solver].
    replace (∅ ∖ dom (base d) : gset K) with (∅ : gset K) by set_solver.
    rewrite size_empty. lia.
  - rewrite read_all_cons. cbn [list_to_set].
    destruct (IH (subscript V0 d k w).1.1 (subscript V0 d k w).1.2)
      as [Hcalls Hdom].
    rewrite Hcalls, Hdom. clear IH Hcalls Hdom.
    destruct (base d !! k) as [u|] eqn:Hk.
    + rewrite (subscript_hit _ _ _ _ _ Hk). cbn [fst snd].
      apply elem_of_dom_2 in Hk. split; [|set_solver].
      do 2 f_equal. set_solver.
    + rewrite (subscript_miss _ _ _ _ Hk). cbn [fst snd base].
      rewrite dom_insert_L. apply not_elem_of_dom in Hk.
      split; [|set_solver].
      replace (({[k]} ∪ list_to_set ks) ∖ dom (base d) : gset K)
        with ({[k]} ∪ list_to_set ks ∖ ({[k]} ∪ dom (base d)) : gset K).
      * rewrite (size_union (C := gset K) {[k]}) by set_solver.
        rewrite (size_singleton (C := gset K)).
        unfold invoke. destruct (f d (globals w)). simpl. lia.
      * apply set_eq. intros x. destruct (decide (x = k)); set_solver.
Qed.

End defaultdict_more.
End defaultdict_more.

(** ** Counter: construction, [update], [+=], [-=], [+] and [-] *)

Section int_more.
Import Int.

Lemma wrap_range z : in_range (wrap z).
Proof.
  unfold in_range, min_signed, max_signed, wrap.
  pose proof (Z.mod_pos_bound (z + 2 ^ 31) (2 ^ 32)). lia.
Qed.

Lemma wrap_add_l a b : wrap (wrap a + b) = wrap (a + b).
Proof.
  unfold wrap. f_equal.
  replace ((a + 2 ^ 31) `mod` 2 ^ 32 - 2 ^ 31 + b + 2 ^ 31)%Z
    with ((a + 2 ^ 31) `mod` 2 ^ 32 + b)%Z by lia.
  rewrite Zplus_mod_idemp_l. f_equal. lia.
Qed.

Lemma wrap_add_r a b : wrap (a + wrap b) = wrap (a + b).
Proof. by rewrite Z.add_comm, wrap_add_l, Z.add_comm. Qed.

Lemma wrap_0 : wrap 0 = 0%Z.
Proof. done. Qed.

End int_more.

Module Counter_more.
Import Counter Counter_facts Elements_facts.

Section Counter_more.
Context `{Countable T}.
Implicit Types (c : gmap T Z) (k x y : T) (st : store (gmap T Z)).

(** The element has an entry in the counter. *)
Lemma elem_of_keys c k : k ∈ (map_to_list c).*1 ↔ is_Some (c !! k).
Proof.
  rewrite list_elem_of_fmap. split.
  - intros ([k' n] & -> & Hin). apply elem_of_map_to_list in Hin. by exists n.
  - intros [n Hn]. exists (k, n). split; [done|]. by apply elem_of_map_to_list.
Qed.

Lemma lookup_total_count_in c k : is_Some (c !! k) → c !!! k = count_in c k.
Proof.
  intros [n Hn]. unfold count_in. rewrite Hn. by apply lookup_total_correct.
Qed.

(** X3: Duplicates in the initializer list of a counter are not added up: the
    count of an element is the count of the first pair that names it, and 0
    for an element no pair names. *)
Theorem ctor_il_first_count (il : list (T * Z)) k :
  count_in (ctor_il il) k = default 0%Z (first_seen il k).
Proof.
  unfold count_in, ctor_il, from_initializer_list.
  by rewrite lookup_insert_range, lookup_empty.
Qed.

(** *** [update] *)

Lemma subscript_insert c k n :
  <[k := n]> (subscript c k).1 = <[k := n]> c ∧
  (subscript c k).2 = count_in c k.
Proof.
  unfold subscript, map_subscript, count_in.
  destruct (c !! k); simpl; [done|]. by rewrite insert_insert_eq.
Qed.

Lemma update_cons c x l :
  update c (x :: l) = update (<[x := Int.add (count_in c x) 1]> c) l.
Proof.
  unfold update. cbn [foldl].
  destruct (subscript_insert c x (Int.add (count_in c x) 1)) as [Hins Hold].
  destruct (subscript c x) as [m old]. simpl in Hins, Hold. by rewrite Hold, Hins.
Qed.

Lemma wf_insert c k n : wf c → Int.in_range n → wf (<[k := n]> c).
Proof.
  intros Hwf Hn k' n'. rewrite lookup_insert. case_decide.
  - by intros [= <-].
  - apply Hwf.
Qed.

Lemma occurrences_cons x y (l : list T) :
  occurrences x (y :: l) = (if decide (x = y) then 1 else 0) + occurrences x l.
Proof.
  unfold occurrences. rewrite filter_cons. by case_decide.
Qed.

(** X4: [update] adds to the count of every element the number of times the
    list names it, in [int] arithmetic, creating the entries that are
    missing, and leaves the other counts alone. *)
Theorem update_counts l : ∀ c x,
  wf c →
  count_in (update c l) x =
    Int.wrap (count_in c x + Z.of_nat (occurrences x l)).
Proof.
  induction l as [|y l IH]; intros c x Hwf.
  - cbn [update foldl]. unfold occurrences. simpl. rewrite Z.add_0_r.
    symmetry. by apply wrap_in_range, count_in_wf.
  - rewrite update_cons, IH by (apply wf_insert; [done | apply wrap_range]).
    rewrite count_in_insert, occurrences_cons.
    destruct (decide (y = x)) as [->|Hyx].
    + rewrite decide_True by done. unfold Int.add. rewrite wrap_add_l.
      f_equal. lia.
    + rewrite decide_False by done. f_equal.
Qed.

(** *** [+=] and [-=] *)

(** The loop of [+=] and [-=], whichever object the operand is. *)
Section pass_any.
Context (step : store (gmap T Z) → addr → T → Z → store (gmap T Z))
        (op : Z → Z → Z).
Context (step_this : ∀ st this k n,
           step st this k n this = <[k := op (count_in (st this) k) n]> (st this))
        (step_other : ∀ st this k n a, a ≠ this → step st this k n a = st a).

Lemma for_each_count_any ks : ∀ st (this d : addr) k,
  NoDup ks →
  count_in (for_each step st this d ks this) k =
    if decide (k ∈ ks) then op (count_in (st this) k) (st d !!! k)
    else count_in (st this) k.
Proof.
  induction ks as [|k' ks IH]; intros st this d k Hnd.
  - cbn [for_each]. case_decide as Hin; [by apply elem_of_nil in Hin | done].
  - apply NoDup_cons in Hnd as [Hk' Hnd].
    cbn [for_each]. rewrite IH by done.
    rewrite step_this, count_in_insert.
    destruct (decide (k' = k)) as [->|Hne].
    + rewrite (decide_False (P := k ∈ ks)) by done.
      by rewrite (decide_True (P := k ∈ k :: ks)) by (apply elem_of_cons; by left).
    + destruct (decide (k ∈ ks)) as [Hin|Hin].
      * rewrite (decide_True (P := k ∈ k' :: ks)) by (apply elem_of_cons; by right).
        f_equal. destruct (decide (d = this)) as [->|Hd].
        -- rewrite step_this. by rewrite lookup_total_insert_ne.
        -- by rewrite step_other.
      * rewrite (decide_False (P := k ∈ k' :: ks)); [done|].
        rewrite not_elem_of_cons. split; [congruence | done].
Qed.

Lemma for_each_dom ks : ∀ st (this d : addr),
  dom (for_each step st this d ks this) = dom (st this) ∪ list_to_set ks.
Proof.
  induction ks as [|k ks IH]; intros st this d; cbn [for_each list_to_set].
  - set_solver.
  - rewrite IH, step_this, dom_insert_L. set_solver.
Qed.

End pass_any.

Lemma add_assign_count st (this d : addr) k :
  count_in (add_assign st this d this) k =
    if decide (is_Some (st d !! k))
    then Int.add (count_in (st this) k) (count_in (st d) k)
    else count_in (st this) k.
Proof.
  unfold add_assign, begin_.
  rewrite (for_each_count_any add_at Int.add add_at_this add_at_other)
    by apply NoDup_fst_map_to_list.
  destruct (decide (is_Some (st d !! k))) as [Hk|Hk].
  - rewrite decide_True by (by apply elem_of_keys).
    by rewrite lookup_total_count_in.
  - by rewrite decide_False by (by rewrite elem_of_keys).
Qed.

Lemma sub_assign_count st (this d : addr) k :
  count_in (sub_assign st this d this) k =
    if decide (is_Some (st d !! k))
    then Int.sub (count_in (st this) k) (count_in (st d) k)
    else count_in (st this) k.
Proof.
  unfold sub_assign, begin_.
  rewrite (for_each_count_any sub_at Int.sub sub_at_this sub_at_other)
    by apply NoDup_fst_map_to_list.
  destruct (decide (is_Some (st d !! k))) as [Hk|Hk].
  - rewrite decide_True by (by apply elem_of_keys).
    by rewrite lookup_total_count_in.
  - by rewrite decide_False by (by rewrite elem_of_keys).
Qed.

Lemma count_in_None c k : ¬ is_Some (c !! k) → count_in c k = 0%Z.
Proof.
  intros Hk. unfold count_in. destruct (c !! k); [|done].
  exfalso. apply Hk. by eexists.
Qed.

Lemma keys_to_set c : list_to_set (map_to_list c).*1 = dom c.
Proof.
  apply set_eq. intros k. by rewrite elem_of_list_to_set, elem_of_keys, elem_of_dom.
Qed.

(** X5: [c += d], with [d] another object than [c], gives every element the
    sum of its two counts in [int] arithmetic, an absent entry counting 0;
    [c] ends with the keys of both, and [d] and every other object are as
    they were. *)
Theorem add_assign_pointwise st (this d : addr) :
  d ≠ this → wf (st this) →
  (∀ k, count_in (add_assign st this d this) k =
          Int.add (count_in (st this) k) (count_in (st d) k)) ∧
  dom (add_assign st this d this) = dom (st this) ∪ dom (st d) ∧
  (∀ a, a ≠ this → add_assign st this d a = st a).
Proof.
  intros Hd Hwf. split; [|split].
  - intros k. rewrite add_assign_count. case_decide as Hk; [done|].
    rewrite (count_in_None (st d)) by done. unfold Int.add.
    rewrite Z.add_0_r. symmetry. by apply wrap_in_range, count_in_wf.
  - unfold add_assign, begin_.
    rewrite (for_each_dom add_at Int.add add_at_this add_at_other).
    by rewrite keys_to_set.
  - intros a Ha. unfold add_assign.
    by apply (for_each_other add_at add_at_other).
Qed.

(** X6: [c -= d], with [d] another object than [c], gives every element the
    difference of its two counts in [int] arithmetic, possibly 0 or
    negative; no entry is removed, [c] ends with the keys of both, and [d]
    and every other object are as they were. *)
Theorem sub_assign_pointwise st (this d : addr) :
  d ≠ this → wf (st this) →
  (∀ k, count_in (sub_assign st this d this) k =
          Int.sub (count_in (st this) k) (count_in (st d) k)) ∧
  dom (sub_assign st this d this) = dom (st this) ∪ dom (st d) ∧
  (∀ a, a ≠ this → sub_assign st this d a = st a).
Proof.
  intros Hd Hwf. split; [|split].
  - intros k. rewrite sub_assign_count. case_decide as Hk; [done|].
    rewrite (count_in_None (st d)) by done. unfold Int.sub.
    rewrite Z.sub_0_r. symmetry. by apply wrap_in_range, count_in_wf.
  - unfold sub_assign, begin_.
    rewrite (for_each_dom sub_at Int.sub sub_at_this sub_at_other).
    by rewrite keys_to_set.
  - intros a Ha. unfold sub_assign.
    by apply (for_each_other sub_at sub_at_other).
Qed.

End Counter_more.

Section Counter_self.
Context `{Countable T}.
Implicit Types (c : gmap T Z) (k x y : T) (st : store (gmap T Z)).

Lemma expand_nonpositive (l : list (T * Z)) :
  Forall (λ kv, kv.2 ≤ 0)%Z l → expand l = [].
Proof.
  induction 1 as [|[x n] l Hn Hl IH]; [done|].
  rewrite expand_cons, IH. simpl in Hn.
  by replace (Z.to_nat n) with 0 by lia.
Qed.

(** X7: With the counter as its own operand, [c += c] doubles every count in
    [int] arithmetic and [c -= c] takes every count to 0; either way [c]
    keeps exactly the entries it had, and after [c -= c] the loop over
    [elements()] yields nothing. *)
Theorem self_assign st (this : addr) :
  (∀ k, count_in (add_assign st this this this) k =
          Int.add (count_in (st this) k) (count_in (st this) k)) ∧
  dom (add_assign st this this this) = dom (st this) ∧
  (∀ k, count_in (sub_assign st this this this) k = 0%Z) ∧
  dom (sub_assign st this this this) = dom (st this) ∧
  (∀ fuel, 0 < fuel →
           elements_list fuel (sub_assign st this this this) = Ok []).
Proof.
  assert (Hzero : ∀ k, count_in (sub_assign st this this this) k = 0%Z).
  { intros k. rewrite sub_assign_count. case_decide as Hk.
    - unfold Int.sub. by rewrite Z.sub_diag.
    - by apply count_in_None. }
  split; [|split; [|split; [done|split]]].
  - intros k. rewrite add_assign_count. case_decide as Hk; [done|].
    by rewrite (count_in_None (st this)).
  - unfold add_assign, begin_.
    rewrite (for_each_dom add_at Int.add add_at_this add_at_other).
    rewrite keys_to_set. set_solver.
  - unfold sub_assign, begin_.
    rewrite (for_each_dom sub_at Int.sub sub_at_this sub_at_other).
    rewrite keys_to_set. set_solver.
  - intros fuel Hfuel.
    set (c := sub_assign st this this this) in *.
    assert (Hall : Forall (λ kv : T * Z, kv.2 ≤ 0)%Z (map_to_list c)).
    { apply Forall_forall. intros [k n] Hin. apply elem_of_map_to_list in Hin.
      specialize (Hzero k). unfold count_in in Hzero. rewrite Hin in Hzero.
      simpl in *. lia. }
    rewrite <- (expand_nonpositive _ Hall). apply elements_list_expand.
    + intros k n Hk. specialize (Hzero k). unfold count_in in Hzero.
      rewrite Hk in Hzero. simpl in Hzero. subst n. apply in_range_0.
    + by rewrite (expand_nonpositive _ Hall).
Qed.

(** *** [operator+] and [operator-] *)

Lemma local_ne (this d : addr) : local this d ≠ this ∧ d ≠ local this d.
Proof. unfold local. split; lia. Qed.

Lemma plus_count st (this d : addr) k :
  count_in (plus st this d) k =
    if decide (is_Some (st d !! k))
    then Int.add (count_in (st this) k) (count_in (st d) k)
    else count_in (st this) k.
Proof.
  unfold plus. destruct (local_ne this d) as [_ Hd].
  rewrite add_assign_count. by rewrite upd_eq, upd_ne.
Qed.

Lemma minus_count st (this d : addr) k :
  count_in (minus st this d) k =
    if decide (is_Some (st d !! k))
    then Int.sub (count_in (st this) k) (count_in (st d) k)
    else count_in (st this) k.
Proof.
  unfold minus. destruct (local_ne this d) as [_ Hd].
  rewrite sub_assign_count. by rewrite upd_eq, upd_ne.
Qed.

(** X8: [c + d] and [c - d] return a counter holding, for every element, the
    sum and the difference of its two counts in [int] arithmetic, whether
    or not [d] is [c] itself; in particular [+] is commutative on counts. *)
Theorem plus_minus_pointwise st (this d : addr) :
  wf (st this) →
  (∀ k, count_in (plus st this d) k =
          Int.add (count_in (st this) k) (count_in (st d) k)) ∧
  (∀ k, count_in (minus st this d) k =
          Int.sub (count_in (st this) k) (count_in (st d) k)) ∧
  (wf (st d) → ∀ k, count_in (plus st this d) k = count_in (plus st d this) k).
Proof.
  intros Hwf.
  assert (Hplus : ∀ st (this d : addr) k, wf (st this) →
    count_in (plus st this d) k =
      Int.add (count_in (st this) k) (count_in (st d) k)).
  { clear. intros st this d k Hwf. rewrite plus_count.
    case_decide as Hk; [done|].
    rewrite (count_in_None (st d)) by done. unfold Int.add.
    rewrite Z.add_0_r. symmetry. by apply wrap_in_range, count_in_wf. }
  split; [|split].
  - intros k. by apply Hplus.
  - intros k. rewrite minus_count. case_decide as Hk; [done|].
    rewrite (count_in_None (st d)) by done. unfold Int.sub.
    rewrite Z.sub_0_r. symmetry. by apply wrap_in_range, count_in_wf.
  - intros Hwfd k. rewrite !Hplus by done. unfold Int.add. f_equal. lia.
Qed.

(** X9: [(c + d) - d] has the counts of [c], also when [d] is [c] itself: the
    sum is an object of its own, which the subtraction does not change
    under its feet. *)
Theorem plus_minus_round_trip st st1 (this d r : addr) k :
  wf (st this) → st1 r = plus st this d → st1 d = st d →
  count_in (minus st1 r d) k = count_in (st this) k.
Proof.
  intros Hwf Hr Hd. rewrite minus_count, Hr, Hd, plus_count.
  case_decide as Hk; [|done]. apply sub_add. by apply count_in_wf.
Qed.

End Counter_self.

(** *** [total] *)

Section Counter_total.
Context `{Countable T}.
Implicit Types (c : gmap T Z) (k x y : T) (st : store (gmap T Z))
  (l : list (T * Z)).

(** The counts of a sequence of entries, and of a counter, added up
    exactly. *)
Definition sum_list (l : list (T * Z)) : Z := foldr (λ kv s, kv.2 + s)%Z 0%Z l.
Definition sum_counts (c : gmap T Z) : Z := sum_list (map_to_list c).

Lemma sum_list_perm l l' : l ≡ₚ l' → sum_list l = sum_list l'.
Proof.
  induction 1 as [|x l l' _ IH|x y l|l l' l'' _ IH1 _ IH2]; simpl; lia.
Qed.

Lemma foldl_add_wrap l : ∀ a,
  Int.in_range a →
  foldl (λ s t, Int.add s t.2) a l = Int.wrap (a + sum_list l).
Proof.
  induction l as [|[x n] l IH]; intros a Ha; simpl.
  - rewrite Z.add_0_r. symmetry. by apply wrap_in_range.
  - rewrite IH by apply wrap_range. unfold Int.add.
    rewrite wrap_add_l. f_equal. lia.
Qed.

Lemma total_wrap c : total c = Int.wrap (sum_counts c).
Proof. unfold total, begin_. by rewrite foldl_add_wrap by apply in_range_0. Qed.

Lemma sum_counts_insert_None c k n :
  c !! k = None → sum_counts (<[k := n]> c) = (n + sum_counts c)%Z.
Proof.
  intros Hk. unfold sum_counts.
  by rewrite (sum_list_perm _ _ (map_to_list_insert c k n Hk)).
Qed.

Lemma sum_counts_insert c k n :
  sum_counts (<[k := n]> c) = (sum_counts c - count_in c k + n)%Z.
Proof.
  unfold count_in. destruct (c !! k) as [old|] eqn:Hk; simpl.
  - rewrite <- (insert_delete_eq c k n).
    rewrite <- (insert_delete_id c k old Hk) at 2.
    rewrite !sum_counts_insert_None by apply lookup_delete_eq. lia.
  - rewrite sum_counts_insert_None by done. lia.
Qed.

(** X10: With no count below 0, and the counts adding up to an [int], [total()]
    is the number of items the loop over [elements()] yields. *)
Theorem total_elements c :
  (∀ k n, c !! k = Some n → (0 ≤ n)%Z) →
  (sum_counts c ≤ Int.max_signed)%Z →
  wf c →
  ∃ xs, (∀ fuel, Z.to_nat (sum_counts c) < fuel →
                 elements_list fuel c = Ok xs) ∧
        total c = Z.of_nat (length xs).
Proof.
  intros Hpos Hsum Hwf. exists (expand (map_to_list c)).
  assert (Hlen : Z.of_nat (length (expand (map_to_list c))) = sum_counts c).
  { rewrite length_expand. unfold sum_counts.
    assert (Hall : Forall (λ kv : T * Z, 0 ≤ kv.2)%Z (map_to_list c)).
    { apply Forall_forall. intros [k n] Hin. apply elem_of_map_to_list in Hin.
      by apply (Hpos k). }
    induction Hall as [|[k n] l Hn Hl IH]; [done|].
    unfold sum_list in *. cbn [foldr]. rewrite IH. simpl in *.
    case_bool_decide; lia. }
  split.
  - intros fuel Hfuel. apply elements_list_expand; [done | lia].
  - rewrite total_wrap, Hlen. apply wrap_in_range.
    unfold Int.in_range, Int.min_signed. split; [|done].
    rewrite <- Hlen. lia.
Qed.

(** X11: [update] raises [total()] by the length of the list, in [int]
    arithmetic. *)
Theorem total_update (xs : list T) : ∀ c,
  total (update c xs) = Int.wrap (total c + Z.of_nat (length xs)).
Proof.
  induction xs as [|x l IH]; intros c.
  - cbn [update foldl length]. rewrite Z.add_0_r, total_wrap.
    symmetry. apply wrap_in_range, wrap_range.
  - rewrite update_cons, IH, !total_wrap, sum_counts_insert.
    rewrite !wrap_add_l. unfold Int.add.
    replace (sum_counts c - count_in c x + Int.wrap (count_in c x + 1)
             + Z.of_nat (length l))%Z
      with ((sum_counts c - count_in c x + Z.of_nat (length l))
            + Int.wrap (count_in c x + 1))%Z by lia.
    rewrite wrap_add_r. f_equal. cbn [length]. lia.
Qed.

Lemma sum_keys c :
  foldr (λ k s, c !!! k + s)%Z 0%Z (map_to_list c).*1 = sum_counts c.
Proof.
  unfold sum_counts.
  assert (Hall : Forall (λ kv : T * Z, c !!! kv.1 = kv.2) (map_to_list c)).
  { apply Forall_forall. intros [k n] Hin. apply elem_of_map_to_list in Hin.
    by apply lookup_total_correct. }
  revert Hall. generalize (map_to_list c). intros l.
  induction 1 as [|[k n] l Hn Hl IH]; [done|].
  cbn [fmap list_fmap foldr sum_list fst snd] in *. by rewrite IH, Hn.
Qed.

Lemma total_for_each_add ks : ∀ st (this d : addr),
  d ≠ this →
  Int.wrap (sum_counts (for_each add_at st this d ks this)) =
    Int.wrap (sum_counts (st this) + foldr (λ k s, st d !!! k + s)%Z 0%Z ks).
Proof.
  induction ks as [|k ks IH]; intros st this d Hd; cbn [for_each foldr].
  - by rewrite Z.add_0_r.
  - rewrite IH by done. rewrite (add_at_other st this k _ d) by done.
    rewrite add_at_this, sum_counts_insert. unfold Int.add.
    set (rest := foldr (λ k s, st d !!! k + s)%Z 0%Z ks).
    replace (sum_counts (st this) - count_in (st this) k
             + Int.wrap (count_in (st this) k + st d !!! k) + rest)%Z
      with ((sum_counts (st this) - count_in (st this) k + rest)
            + Int.wrap (count_in (st this) k + st d !!! k))%Z by lia.
    rewrite wrap_add_r. f_equal. lia.
Qed.

(** X12: After [c += d], with [d] another object than [c], [c.total()] is the
    sum of the two totals in [int] arithmetic. *)
Theorem total_add_assign st (this d : addr) :
  d ≠ this →
  total (add_assign st this d this) =
    Int.wrap (total (st this) + total (st d)).
Proof.
  intros Hd. rewrite !total_wrap. unfold add_assign, begin_.
  rewrite total_for_each_add by done.
  by rewrite sum_keys, wrap_add_l, wrap_add_r.
Qed.

End Counter_total.

(** The counters of [main] again: [{a: 1, b: 1}] and [{b: 1, c: 2}] at the
    addresses 0 and 1 of [st0]. *)

Lemma update_counts_witness :
  count_in (update (st0 0) ["a"; "d"; "a"]%char) "a"%char =
    Int.wrap (count_in (st0 0) "a"%char
              + Z.of_nat (occurrences "a"%char ["a"; "d"; "a"]%char)).
Proof. apply (update_counts _ (st0 0) "a"%char), wf_st0. Defined.

Lemma add_assign_pointwise_witness :
  (∀ k, count_in (add_assign st0 0 1 0) k =
          Int.add (count_in (st0 0) k) (count_in (st0 1) k)) ∧
  dom (add_assign st0 0 1 0) = dom (st0 0) ∪ dom (st0 1) ∧
  (∀ a, a ≠ 0 → add_assign st0 0 1 a = st0 a).
Proof. apply (add_assign_pointwise st0 0 1); [discriminate | apply wf_st0]. Defined.

Lemma sub_assign_pointwise_witness :
  (∀ k, count_in (sub_assign st0 0 1 0) k =
          Int.sub (count_in (st0 0) k) (count_in (st0 1) k)) ∧
  dom (sub_assign st0 0 1 0) = dom (st0 0) ∪ dom (st0 1) ∧
  (∀ a, a ≠ 0 → sub_assign st0 0 1 a = st0 a).
Proof. apply (sub_assign_pointwise st0 0 1); [discriminate | apply wf_st0]. Defined.

Lemma plus_minus_pointwise_witness :
  (∀ k, count_in (plus st0 0 1) k =
          Int.add (count_in (st0 0) k) (count_in (st0 1) k)) ∧
  (∀ k, count_in (minus st0 0 1) k =
          Int.sub (count_in (st0 0) k) (count_in (st0 1) k)) ∧
  (wf (st0 1) → ∀ k, count_in (plus st0 0 1) k = count_in (plus st0 1 0) k).
Proof. apply (plus_minus_pointwise st0 0 1), wf_st0. Defined.

(** [(c + c) - c], the sum held at address 5. *)
Lemma plus_minus_round_trip_witness :
  count_in (minus (upd st0 5 (plus st0 0 0)) 5 0) "b"%char =
    count_in (st0 0) "b"%char.
Proof.
  apply (plus_minus_round_trip st0 (upd st0 5 (plus st0 0 0)) 0 0 5 "b"%char).
  - apply wf_st0.
  - apply upd_eq.
  - reflexivity.
Defined.

Example plus_self : plus st0 0 0 = {[ "a"%char := 2%Z; "b"%char := 2%Z ]}.
Proof. vm_compute. reflexivity. Qed.

(** [{a: 3, b: 2, c: 2, d: 1}], every count positive. *)
Definition ct_pos : gmap ascii Z :=
  {[ "a"%char := 3%Z; "b"%char := 2%Z; "c"%char := 2%Z; "d"%char := 1%Z ]}.

Lemma total_elements_witness :
  ∃ xs, (∀ fuel, Z.to_nat (sum_counts ct_pos) < fuel →
                 elements_list fuel ct_pos = Ok xs) ∧
        total ct_pos = Z.of_nat (length xs).
Proof.
  apply (total_elements ct_pos).
  - apply (bool_decide_unpack (map_Forall (λ _ n, 0 ≤ n)%Z ct_pos)).
    vm_compute. exact I.
  - by vm_compute.
  - apply (bool_decide_unpack _). vm_compute. exact I.
Defined.

Lemma total_add_assign_witness :
  total (add_assign st0 0 1 0) = Int.wrap (total (st0 0) + total (st0 1)).
Proof. apply (total_add_assign st0 0 1). discriminate. Defined.

End Counter_more.

(** ** Counter: the range of [most_common] *)

Module Ranking_more.
Import Counter Counter_facts Elements_facts MostCommon_facts.

Section ranking_more.
Context `{Countable T} `{!HeapAlgorithms (cmp (T:=T))}.
Implicit Types (c : gmap T Z).

(** X14: For [0 < n <= size], [most_common(n)] returns [n] entries of the
    counter, most common first, and no entry it leaves out is more common
    than one it returns; this holds whatever conforming heap the library
    builds. *)
Theorem most_common_top n c :
  (0 < n ≤ Z.of_nat (size c))%Z →
  ∃ top rest,
    most_common n c = (c, Ok top) ∧
    Z.of_nat (length top) = n ∧
    StronglySorted (flip le_count) top ∧
    top ++ rest ≡ₚ map_to_list c ∧
    below rest top.
Proof.
  intros Hn.
  assert (Heff : effective n c = n).
  { unfold effective. by rewrite bool_decide_eq_false_2 by lia. }
  destruct (most_common_ranking n c) as (top & rest & Hcall & Hlen & Hrest);
    [lia|].
  exists top, rest. split; [done|]. split; [lia | done].
Qed.

(** X15: [most_common()], [most_common(0)] and [most_common(size)] return every
    entry of the counter, most common first, as long as the size is an
    [int]. *)
Theorem most_common_everything c n :
  (Z.of_nat (size c) ≤ Int.max_signed)%Z →
  n = 0%Z ∨ n = Z.of_nat (size c) →
  ∃ top, most_common n c = (c, Ok top) ∧
         most_common_default c = most_common 0 c ∧
         StronglySorted (flip le_count) top ∧
         top ≡ₚ map_to_list c.
Proof.
  intros Hsize Hn.
  destruct (most_common_all c n Hsize Hn) as (top & Hcall & Hsorted & Hperm).
  by exists top.
Qed.

(** X16: A negative argument is undefined behaviour: the loop does not run and
    [v.end() - n] lies beyond [v.end()]. *)
Theorem most_common_below_zero n c :
  (n < 0)%Z → most_common n c = (c, Undefined).
Proof.
  intros Hn. apply most_common_undefined. left.
  unfold effective. rewrite bool_decide_eq_false_2 by lia. done.
Qed.

End ranking_more.

Import MostCommon_binary_heap.

Lemma most_common_top_witness :
  ∃ top rest,
    most_common 2 ct = (ct, Ok top) ∧
    Z.of_nat (length top) = 2%Z ∧
    StronglySorted (flip le_count) top ∧
    top ++ rest ≡ₚ map_to_list ct ∧
    below rest top.
Proof. apply (most_common_top 2 ct). by vm_compute. Defined.

Lemma most_common_everything_witness :
  ∃ top, most_common 0 ct = (ct, Ok top) ∧
         most_common_default ct = most_common 0 ct ∧
         StronglySorted (flip le_count) top ∧
         top ≡ₚ map_to_list ct.
Proof. apply (most_common_everything ct 0); [by vm_compute | by left]. Defined.

Lemma most_common_below_zero_witness : most_common (-1) ct = (ct, Undefined).
Proof. apply (most_common_below_zero (-1) ct). lia. Defined.

End Ranking_more.

(** ** ChainMap: layers, writes, [erase] and [one_map] *)

Module ChainMap_more.
Import ChainMap ChainMap_facts.

Section ChainMap_more.
Context `{Countable K} {V : Type} (V0 : V).
Implicit Types (st : store (gmap K V)) (cm : t) (k : K) (v u : V) (a b : addr).

(** *** [get_map] and the constructors *)

Lemma get_map_maps cm : ∀ i, get_map cm i = maps cm !! i.
Proof.
  induction cm as [map|map B IH]; intros [|i]; simpl; [done | | done |].
  - by destruct i.
  - by rewrite IH, Nat.sub_0_r.
Qed.

Lemma maps_ctor (ms : list addr) : ∀ map, maps (ctor map ms) = map :: ms.
Proof.
  induction ms as [|m ms IH]; intros map; simpl; [done|]. by rewrite IH.
Qed.

(** X17: [get_map(i)] is the [i]-th of the maps the chain was built from, front
    first, and throws exactly from the number of maps on. *)
Theorem get_map_ctor (map : addr) (ms : list addr) (i : nat) :
  get_map (ctor map ms) i = (map :: ms) !! i ∧
  (get_map (ctor map ms) i = None ↔ S (length ms) ≤ i).
Proof.
  rewrite get_map_maps, maps_ctor. split; [done|].
  rewrite lookup_ge_None. done.
Qed.

(** [new_child(m)] puts [m] in front and moves every layer one place back:
    its [get_map(0)] is [m], its [get_map(i + 1)] is the old [get_map(i)],
    and its [at] reads [m] first and the old chain after. *)
Lemma new_child_layers st cm (m : addr) :
  maps (new_child cm m) = m :: maps cm ∧
  get_map (new_child cm m) 0 = Some m ∧
  (∀ i, get_map (new_child cm m) (S i) = get_map cm i) ∧
  (∀ k, at_ st (new_child cm m) k =
          match st m !! k with
          | Some v => Some v
          | None => at_ st cm k
          end).
Proof.
  split; [done|]. split; [done|]. split; [|done].
  intros i. by rewrite !get_map_maps.
Qed.

(** *** Reads after a write *)

(** A change of one map that keeps its value for [k'] does not change
    what any chain reads for [k']. *)
Lemma at_upd st (a : addr) (m : gmap K V) cm k' :
  m !! k' = st a !! k' → at_ (upd st a m) cm k' = at_ st cm k'.
Proof.
  intros Hm.
  assert (Hlayer : ∀ b, upd st a m b !! k' = st b !! k').
  { intros b. unfold upd. case_decide; [by subst | done]. }
  induction cm as [map|map B IH]; simpl; unfold map_at; rewrite Hlayer; [done|].
  by rewrite IH.
Qed.

(** A change of a map that is no layer of the chain is not seen by it. *)
Lemma at_upd_notin st (a : addr) (m : gmap K V) cm k :
  a ∉ maps cm → at_ (upd st a m) cm k = at_ st cm k.
Proof.
  induction cm as [map|map B IH]; simpl; unfold map_at.
  - intros Ha%not_elem_of_cons. by rewrite upd_ne by (by destruct Ha).
  - intros [Hne Ha]%not_elem_of_cons. rewrite upd_ne by done.
    by rewrite IH.
Qed.

Lemma at_front st cm k v : st (front cm) !! k = Some v → at_ st cm k = Some v.
Proof.
  destruct cm as [map|map B]; simpl; unfold map_at; intros Hk; by rewrite Hk.
Qed.

(** [cm[k]] stores in the front map the value [at(k)] returns, or [V0]
    when [at(k)] throws, and returns it. *)
Lemma subscript_eq st cm k :
  let v := default V0 (at_ st cm k) in
  subscript V0 st cm k = (upd st (front cm) (<[k := v]> (st (front cm))), v).
Proof.
  destruct cm as [map|map B]; cbn [subscript at_ front];
    unfold map_at, map_subscript.
  - destruct (st map !! k) as [u|] eqn:Hmap; simpl; [|done].
    by rewrite (insert_id _ _ _ Hmap).
  - destruct (st map !! k) as [u|] eqn:Hmap; simpl; [done|].
    destruct (at_ st B k) as [u|]; simpl; [|done].
    by rewrite insert_insert_eq.
Qed.

(** X18: After [cm[k]], [at(k)] returns the value [cm[k]] returned, and keeps
    returning it however the other maps change: the front map now answers
    for [k]. *)
Theorem subscript_then_at st cm k st2 :
  st2 (front cm) !! k = (subscript V0 st cm k).1 (front cm) !! k →
  at_ st2 cm k = Some (subscript V0 st cm k).2.
Proof.
  rewrite subscript_eq. cbn [fst snd]. rewrite upd_eq, lookup_insert_eq.
  apply at_front.
Qed.

(** X19: [cm[k]] does not change what [at] returns for any other key, through
    this chain or through any other chain over the same maps. *)
Theorem subscript_other_keys st cm cm' k k' :
  k ≠ k' → at_ (subscript V0 st cm k).1 cm' k' = at_ st cm' k'.
Proof.
  intros Hk. rewrite subscript_eq. cbn [fst]. apply at_upd.
  by rewrite lookup_insert_ne.
Qed.

(** X20: A second [cm[k]] returns the same value and changes no map. *)
Theorem subscript_twice st cm k :
  let st1 := (subscript V0 st cm k).1 in
  (subscript V0 st1 cm k).2 = (subscript V0 st cm k).2 ∧
  ∀ a, (subscript V0 st1 cm k).1 a = st1 a.
Proof.
  intros st1.
  assert (Hfront : st1 (front cm) !! k = Some (subscript V0 st cm k).2).
  { unfold st1. rewrite subscript_eq. cbn [fst snd].
    by rewrite upd_eq, lookup_insert_eq. }
  rewrite (subscript_eq st1). cbn [fst snd].
  rewrite (at_front _ _ _ _ Hfront). simpl. split; [done|].
  intros a. unfold upd at 1. case_decide as Ha; [|done].
  subst a. by apply insert_id.
Qed.

(** *** [erase] *)

(** X21: [erase(k)] returns 1 when the front map held [k] and 0 when not, takes
    [k] out of the front map and touches nothing else: a second [erase(k)]
    returns 0, every other map is as it was, and no chain over the maps
    reads another key differently. *)
Theorem erase_front_only st cm k :
  (erase st cm k).2 = (if st (front cm) !! k is Some _ then 1 else 0) ∧
  (erase st cm k).1 (front cm) !! k = None ∧
  (erase (erase st cm k).1 cm k).2 = 0 ∧
  (∀ a, a ≠ front cm → (erase st cm k).1 a = st a) ∧
  (∀ cm' k', k ≠ k' → at_ (erase st cm k).1 cm' k' = at_ st cm' k').
Proof.
  assert (Hgone : (erase st cm k).1 (front cm) !! k = None).
  { unfold erase. destruct (st (front cm) !! k) eqn:Hk; simpl; [|done].
    by rewrite upd_eq, lookup_delete_eq. }
  split; [|split; [done|split; [|split]]].
  - unfold erase. by destruct (st (front cm) !! k).
  - unfold erase at 1. by rewrite Hgone.
  - intros a Ha. unfold erase. destruct (st (front cm) !! k); simpl; [|done].
    by apply upd_ne.
  - intros cm' k' Hk. unfold erase. destruct (st (front cm) !! k); simpl; [|done].
    apply at_upd. by rewrite lookup_delete_ne.
Qed.

(** X22: After [erase(k)], [at(k)] reads the layers behind the front one, when
    the front map is not also one of them: a key held further back shows
    again, with the value of the first layer behind that holds it. *)
Theorem erase_uncovers st (map : addr) (B : t) k :
  map ∉ maps B →
  at_ (erase st (Chain map B) k).1 (Chain map B) k = at_ st B k.
Proof.
  intros Hmap. unfold erase. cbn [front].
  destruct (st map !! k) as [u|] eqn:Hk; cbn [fst at_]; unfold map_at.
  - rewrite upd_eq, lookup_delete_eq. by apply at_upd_notin.
  - by rewrite Hk.
Qed.

(** *** [one_map] *)

(** X23: [one_map()] gives every key what [at] returns for it and lacks the keys
    [at] throws for; it is the union of the layers, an earlier layer taking
    precedence, and for [new_child(m)] it is [m] with the entries of the old
    [one_map()] added under the keys [m] lacks. *)
Theorem one_map_layers st cm (m : addr) :
  (∀ k, one_map st cm !! k = at_ st cm k) ∧
  one_map st cm = foldr (∪) ∅ (st <$> maps cm) ∧
  one_map st (new_child cm m) = st m ∪ one_map st cm.
Proof.
  split; [apply lookup_one_map|]. split.
  - apply map_eq. intros k. rewrite lookup_one_map.
    induction cm as [map|map B IH]; cbn [maps fmap list_fmap foldr at_];
      unfold map_at; rewrite lookup_union.
    + rewrite lookup_empty. by destruct (st map !! k).
    + rewrite <- IH. by destruct (st map !! k), (at_ st B k).
  - apply map_eq. intros k.
    rewrite lookup_union, !lookup_one_map. simpl. unfold map_at.
    by destruct (st m !! k), (at_ st cm k).
Qed.

(** X24: [one_map(one)], for a map [one] that is none of the layers, keeps every
    entry of [one] and adds, under each key [one] lacks, what [at] returns
    for it. *)
Theorem one_map_into_keeps st cm (one : gmap K V) :
  one_map_into st cm one = one ∪ one_map st cm.
Proof.
  apply map_eq. intros k.
  rewrite lookup_one_map_into, lookup_union, lookup_one_map.
  by destruct (one !! k), (at_ st cm k).
Qed.

End ChainMap_more.

Lemma erase_uncovers_witness :
  at_ (erase stm cmp "c"%char).1 cmp "c"%char = at_ stm (Single 3) "c"%char.
Proof.
  apply (erase_uncovers stm 2 (Single 3) "c"%char).
  intros Hin. apply list_elem_of_singleton in Hin. discriminate.
Defined.

Lemma subscript_then_at_witness :
  at_ (subscript 0%Z stm cmp "d"%char).1 cmp "d"%char = Some 6%Z.
Proof. apply (subscript_then_at 0%Z stm cmp "d"%char). reflexivity. Defined.

Lemma subscript_other_keys_witness :
  at_ (subscript 0%Z stm cmp "d"%char).1 n_cmp "c"%char = at_ stm n_cmp "c"%char.
Proof. apply (subscript_other_keys 0%Z stm cmp n_cmp). discriminate. Defined.

End ChainMap_more.

(** ** Counter: [elements()] in any order of iteration; the memory of [most_common] *)

Module Counter_run_facts.
Import Counter Counter_run Counter_facts Elements_facts MostCommon_facts.

Section elements_over.
Context `{Countable T}.
Implicit Types (es : list (T * Z)) (c : gmap T Z).

(** [elements()] of a counter is [elements_over] in the order [begin_]
    gives its entries. *)
Lemma elements_list_over_begin c fuel :
  elements_list fuel c = elements_list_over fuel (begin_ c).
Proof. done. Qed.

Lemma elements_list_over_expand es fuel :
  counts_in_range es → length (expand es) < fuel →
  elements_list_over fuel es = Ok (expand es).
Proof.
  intros Hr Hfuel. unfold elements_list_over, elements_over.
  rewrite skip_first_positive. cbn [mbind result_mbind result_bind].
  apply first_positive_in_range in Hr.
  rewrite <- (expand_first_positive es) in Hfuel |- *.
  destruct (first_positive es) as [|[y m] r] eqn:Hfirst.
  - destruct fuel as [|fuel]; [simpl in Hfuel; lia|]. done.
  - pose proof (first_positive_head _ _ _ _ Hfirst) as Hm.
    apply Forall_cons in Hr as [Hmr Hr].
    rewrite Iter_ctor_cons, Iter_ctor_end.
    cbn [mbind result_mbind result_bind b e].
    rewrite expand_cons in Hfuel |- *.
    rewrite length_app, length_replicate in Hfuel.
    apply range_for_run; [done | done | done | done | lia].
Qed.

(** X13: In whichever order the container visits its entries, the loop
    over [elements()] yields the elements in that order, all copies of one
    element next to each other: as many copies of the first entry as its
    count says, none if that is 0 or less, then those of the next entry,
    and so on. *)
Theorem elements_any_order es fuel :
  Forall (λ kv, Int.in_range kv.2) es →
  length (es ≫= λ kv, replicate (Z.to_nat kv.2) kv.1) < fuel →
  elements_list_over fuel es =
    Ok (es ≫= λ kv, replicate (Z.to_nat kv.2) kv.1).
Proof. intros Hr Hfuel. by apply elements_list_over_expand. Qed.

End elements_over.

Section most_common_call.
Context `{Countable T} `{!HeapAlgorithms (cmp (T:=T))}.
Implicit Types (m : store (object (T:=T))) (v : list (T * Z)) (c : gmap T Z)
  (a b : addr).

(** The loop writes the vector it is given and nothing else. *)
Lemma pop_loop_at_spec iters : ∀ i a m v,
  m a = Vec v →
  match pop_loop iters i v with
  | Ok v' => ∃ m', pop_loop_at iters i a m = Ok m' ∧ m' a = Vec v' ∧
                   ∀ b, b ≠ a → m' b = m b
  | Undefined => pop_loop_at iters i a m = Undefined
  | OutOfFuel => True
  end.
Proof.
  induction iters as [|iters IH]; intros i a m v Hm.
  - simpl. by exists m.
  - cbn [pop_loop pop_loop_at]. unfold pop_heap_at, read_vector. rewrite Hm.
    cbn [mbind result_mbind result_bind].
    case_bool_decide as Hlast; [|done].
    cbn [mbind result_mbind result_bind].
    set (k := Z.to_nat (Z.of_nat (length v) - i)).
    set (v1 := pop_heap (take k v) ++ drop k v).
    specialize (IH (i + 1)%Z a (upd m a (Vec v1)) v1 (upd_eq _ _ _)).
    destruct (pop_loop iters (i + 1) v1) as [v'| |]; [|done|done].
    destruct IH as (m' & Hloop & Hv' & Hframe).
    exists m'. split; [done|]. split; [done|].
    intros b Hb. rewrite Hframe by done. by apply upd_ne.
Qed.

(** The call returns what [most_common] computes from the entries, is
    undefined where that is, and on its way writes its local and nothing
    else. *)
Lemma most_common_call_spec (vec this : addr) n m c :
  m this = Cnt c →
  match (most_common n c).2 with
  | Ok top => ∃ m', most_common_call vec this n m = Ok (m', top) ∧
                    ∀ a, a ≠ vec → m' a = m a
  | Undefined => most_common_call vec this n m = Undefined
  | OutOfFuel => True
  end.
Proof.
  intros Hthis. unfold most_common_call, most_common, read_counter.
  rewrite Hthis. cbn [mbind result_mbind result_bind snd].
  set (n' := if bool_decide (n = 0)%Z then Int.of_size (size c) else n).
  unfold make_heap_at, read_vector. rewrite upd_eq.
  cbn [mbind result_mbind result_bind].
  set (m1 := upd (upd m vec (Vec (begin_ c))) vec (Vec (make_heap (begin_ c)))).
  pose proof (pop_loop_at_spec (Z.to_nat n') 0 vec m1 (make_heap (begin_ c))
                (upd_eq _ _ _)) as Hloop.
  destruct (pop_loop (Z.to_nat n') 0 (make_heap (begin_ c))) as [w| |];
    cbn [mbind result_mbind result_bind]; [| |done].
  - destruct Hloop as (m' & -> & Hw & Hframe).
    cbn [mbind result_mbind result_bind]. rewrite Hw.
    cbn [mbind result_mbind result_bind].
    destruct (reverse_range w n') as [top| |]; simpl; [|done|done].
    exists m'. split; [done|]. intros a Ha.
    rewrite Hframe by done. unfold m1. by rewrite !upd_ne.
  - by rewrite Hloop.
Qed.

(** X25: A call of [most_common] that returns has written its local
    vector and nothing else: the counter it was called on and every other
    object are as they were.  For [0 <= n <= size], [n] standing for the
    size when it is 0, the call returns, with the ranking [most_common]
    computes. *)
Theorem most_common_call_frame (vec this : addr) n m c :
  vec ≠ this → m this = Cnt c →
  (∀ m' top, most_common_call vec this n m = Ok (m', top) →
             m' this = Cnt c ∧ ∀ a, a ≠ vec → m' a = m a) ∧
  ((0 ≤ effective n c ≤ Z.of_nat (size c))%Z →
   ∃ m' top, most_common_call vec this n m = Ok (m', top) ∧
             (most_common n c).2 = Ok top).
Proof.
  intros Hvec Hthis. pose proof (most_common_call_spec vec this n m c Hthis) as Hspec.
  split.
  - intros m' top Hcall.
    destruct ((most_common n c).2) as [top'| |] eqn:Hmc.
    + destruct Hspec as (m'' & Hcall' & Hframe).
      rewrite Hcall in Hcall'. injection Hcall' as <- <-.
      split; [|done]. rewrite Hframe by done. done.
    + rewrite Hcall in Hspec. discriminate.
    + exfalso. revert Hmc. unfold most_common. cbn [snd].
      generalize (if bool_decide (n = 0)%Z then Int.of_size (size c) else n).
      intros n'. clear.
      assert (Hloop : ∀ iters i v, pop_loop iters i v ≠ OutOfFuel).
      { induction iters as [|iters IH]; intros i v; [done|].
        cbn [pop_loop]. case_bool_decide; [apply IH | done]. }
      destruct (pop_loop (Z.to_nat n') 0 (make_heap (begin_ c))) as [w| |] eqn:Hw;
        cbn [mbind result_mbind result_bind]; [|done|by apply Hloop in Hw].
      unfold reverse_range. by case_bool_decide.
  - intros Hn.
    destruct (most_common_ranking n c Hn) as (top & rest & Hcall & _).
    rewrite Hcall in Hspec. cbn [snd] in Hspec.
    destruct Hspec as (m' & Hcall' & _).
    exists m', top. by rewrite Hcall.
Qed.

End most_common_call.

Import MostCommon_binary_heap.

(** The entries [d: 1, c: 2, b: 2, a: 3] in the order a run of [main]
    visits them; the loop prints [dccbbaaa]. *)
Lemma elements_any_order_witness :
  elements_list_over 9 [("d", 1); ("c", 2); ("b", 2); ("a", 3)]%char%Z =
    Ok ["d"; "c"; "c"; "b"; "b"; "a"; "a"; "a"]%char.
Proof.
  apply (elements_any_order [("d", 1); ("c", 2); ("b", 2); ("a", 3)]%char%Z 9).
  - apply (bool_decide_unpack _). vm_compute. exact I.
  - vm_compute. lia.
Defined.

(** A memory with the counter [{a: 1}] at address 0; the call below is on
    that counter and has its local at address 1. *)
Definition mem_a1 : store (object (T:=ascii)) :=
  λ a, match a with
       | 0 => Cnt {[ "a"%char := 1%Z ]}
       | _ => Vec []
       end.

Lemma most_common_call_frame_witness :
  (∀ m' top, most_common_call 1 0 1 mem_a1 = Ok (m', top) →
             m' 0 = Cnt {[ "a"%char := 1%Z ]} ∧ ∀ a, a ≠ 1 → m' a = mem_a1 a) ∧
  ((0 ≤ effective 1 {[ "a"%char := 1%Z ]}
      ≤ Z.of_nat (size ({[ "a"%char := 1%Z ]} : gmap ascii Z)))%Z →
   ∃ m' top, most_common_call 1 0 1 mem_a1 = Ok (m', top) ∧
             (most_common 1 {[ "a"%char := 1%Z ]}).2 = Ok top).
Proof.
  apply (most_common_call_frame 1 0 1 mem_a1 {[ "a"%char := 1%Z ]});
    [discriminate | reflexivity].
Defined.

Example most_common_call_in_range :
  (most_common_call 1 0 1 mem_a1 ≫= λ r, Ok r.2) = Ok [("a"%char, 1%Z)].
Proof. vm_compute. reflexivity. Qed.


End Counter_run_facts.
